(** * The Kademlia routing table of [dht/hashtable.go]

    A shallow embedding of the routing table: the bucket index of two
    identifiers ([getBucketIndexFromDifferingBit], [hasBit]), the table
    constructor ([newHashTable]), insertion ([addNode]) and the
    closest-contacts query ([getClosestContacts]).

    Conventions of the embedding.
    - A Go [byte] is a [Byte.byte]; a [[]byte] is a [list byte] (a nil slice
      and an empty slice are both [[]], except for [Options.ID], whose
      nil-ness the constructor tests: there it is an [option]).
    - A Go [int] is a [Z]; every [int] below is bounded by the length of a
      slice or by [b], so no 64-bit wrap-around can occur.  The one unsigned
      subtraction, in [hasBit], has its wrap-around written out.
    - A run-time panic (index out of range) is [None] in the [option] monad.
      The constructor can both panic and return an [error]; it has its own
      result type [outcome].
    - [*node] and [*NetworkNode] are modelled by the records they point to;
      a nil pointer is no contact (dereferencing one panics before the
      table is touched).
    - The table's mutex serialises the calls; the embedding is the sequential
      semantics of one call at a time. *)

From Stdlib Require Import ZArith Lia String List.
From Stdlib.Strings Require Import Byte.
From stdpp Require Import base option list sorting.

Open Scope Z_scope.

(** ** Constants *)

Definition alpha : Z := 3.
Definition b : Z := 160.
Definition k : Z := 20.

(** ** Bytes and byte slices *)

Definition byteZ (x : byte) : Z := Z.of_N (Byte.to_N x).

(** [x ^ y] on two bytes. The exclusive or of two bytes is a byte, so the
    default branch is never taken (lemma [byteZ_xor]). *)
Definition byte_xor (x y : byte) : byte :=
  default x00 (Byte.of_N (N.lxor (Byte.to_N x) (Byte.to_N y))).

#[global] Instance byte_eq_decision : EqDecision byte := Byte.byte_eq_dec.

(** [bytes.Compare]: lexicographic order on byte slices, as -1, 0 or 1. *)
Fixpoint bytes_Compare (x y : list byte) : Z :=
  match x, y with
  | [], [] => 0
  | [], _ :: _ => -1
  | _ :: _, [] => 1
  | c :: x', d :: y' =>
      match (byteZ c ?= byteZ d) with
      | Lt => -1
      | Gt => 1
      | Eq => bytes_Compare x' y'
      end
  end.

(** [s[i]] for a Go [int] index: out of range is a panic. *)
Definition sliceAt {A : Type} (s : list A) (i : Z) : option A :=
  if i <? 0 then None else s !! Z.to_nat i.

(** ** Data *)

Inductive error : Type :=
  | errors_New (msg : string).

(** [net.IP] is a byte slice. *)
Definition net_IP : Type := list byte.

Record NetworkNode : Type := mkNetworkNode {
  ID : list byte;
  IP : net_IP;
  Port : Z
}.

(** Modelled from the spec: the type [node] is declared outside
    [hashtable.go]. A Contact (internally "node") is a NetworkNode known to
    the routing table; the code reads only its [ID]. *)
Abbreviation node := NetworkNode (only parsing).

Record hashTable : Type := mkHashTable {
  Self : NetworkNode;
  RoutingTable : list (list node)
}.

(** Modelled from the spec: the type [Options] is declared outside
    [hashtable.go]. The construction input is an optional fixed identifier,
    an address string and a numeric port string. *)
Record Options : Type := mkOptions {
  Options_ID : option (list byte);
  Options_IP : string;
  Options_Port : string
}.

(** Modelled from the spec: the type [shortList] is declared outside
    [hashtable.go]. A Candidate Shortlist is an ordered sequence of contacts
    together with the fixed query target its ordering compares against
    ("supplied at construction or at sort time"). *)
Record shortList : Type := mkShortList {
  Nodes : list node;
  Comparator : list byte
}.

(** The composite literal [&shortList{}]: every field has its zero value. *)
Definition shortList_zero : shortList :=
  {| Nodes := []; Comparator := [] |}.

(** The result of a call that returns a value or panics. *)
Inductive outcome (A : Type) : Type :=
  | Returns (a : A)
  | Panics (e : error).
Arguments Returns {A} a.
Arguments Panics {A} e.

(** ** The distance metric *)

(** [hasBit(n, pos)]: [pos = 7 - pos] on a [uint], [val := n & (1 << pos)]
    on a [byte], [val > 0]. *)
Definition hasBit (n : byte) (pos : Z) : bool :=
  let pos := (7 - pos) mod 2 ^ 64 in
  let val := Z.land (byteZ n) (Z.shiftl 1 pos mod 256) in
  val >? 0.

(** The inner loop [for i := 0; i < 8; i++] on the byte [xor] of byte [j];
    [n] counts the iterations that are left. [None]: no bit of the byte is
    set and the loop falls through. *)
Fixpoint bitLoop (xor : byte) (j : Z) (n : nat) (i : Z) : option Z :=
  match n with
  | O => None
  | S n' =>
      if hasBit xor i then
        let byteIndex := j * 8 in
        let bitIndex := i in
        Some (b - (byteIndex + bitIndex) - 1)
      else bitLoop xor j n' (i + 1)
  end.

(** The outer loop [for j := 0; j < len(id1); j++]; [n] counts the
    iterations that are left. Reading [id2[j]] past its end panics. *)
Fixpoint byteLoop (id1 id2 : list byte) (n : nat) (j : Z) : option Z :=
  match n with
  | O => Some 0
  | S n' =>
      x ← sliceAt id1 j;
      y ← sliceAt id2 j;
      match bitLoop (byte_xor x y) j 8 0 with
      | Some r => Some r
      | None => byteLoop id1 id2 n' (j + 1)
      end
  end.

Definition getBucketIndexFromDifferingBit (id1 id2 : list byte) : option Z :=
  byteLoop id1 id2 (length id1) 0.

(** ** Construction *)

Section Construction.

(** The Go standard library, as the constructor uses it: [net.ParseIP],
    [strconv.Atoi] (the value and the error, if any) and [rand.Read] on a
    buffer (the buffer afterwards and the error, if any). *)
Variable ParseIP : string -> net_IP.
Variable Atoi : string -> Z * option error.
Variable rand_Read : list byte -> list byte * option error.

Definition newID : list byte * option error :=
  let result := replicate 20 x00 in
  rand_Read result.

(** [for i := 0; i < b; i++ { RoutingTable = append(RoutingTable, []*node{}) }] *)
Fixpoint appendBuckets (n : nat) (rt : list (list node)) : list (list node) :=
  match n with
  | O => rt
  | S n' => appendBuckets n' (rt ++ [[]])
  end.

Definition newHashTable (options : Options)
  : outcome (option hashTable * option error) :=
  let self_ID :=
    match Options_ID options with
    | Some id => Returns id
    | None =>
        match newID with
        | (_, Some err) => Panics err
        | (id, None) => Returns id
        end
    end in
  match self_ID with
  | Panics e => Panics e
  | Returns id =>
      if (Options_IP options =? "")%string || (Options_Port options =? "")%string
      then Returns (None, Some (errors_New "Port and IP required"))
      else
        let ip := ParseIP (Options_IP options) in
        match Atoi (Options_Port options) with
        | (_, Some err) => Returns (None, Some err)
        | (port, None) =>
            let self := {| ID := id; IP := ip; Port := port |} in
            Returns (Some {| Self := self;
                             RoutingTable := appendBuckets (Z.to_nat b) [] |},
                     None)
        end
  end.

End Construction.

(** ** Insertion *)

(** [for _, v := range bucket { if bytes.Compare(v.ID, node.ID) == 0 { return } }] *)
Fixpoint alreadyExists (bucket : list node) (n : node) : bool :=
  match bucket with
  | [] => false
  | v :: bucket' =>
      if bytes_Compare (ID v) (ID n) =? 0 then true else alreadyExists bucket' n
  end.

Definition addNode (ht : hashTable) (n : node) : option hashTable :=
  idx ← getBucketIndexFromDifferingBit (ID (Self ht)) (ID n);
  bucket ← sliceAt (RoutingTable ht) idx;
  if alreadyExists bucket n then Some ht
  else
    let bucket := bucket ++ [n] in
    let bucket :=
      if Z.of_nat (length bucket) >? k
      then take (length bucket - 1) bucket
      else bucket in
    Some {| Self := Self ht;
            RoutingTable := <[Z.to_nat idx := bucket]> (RoutingTable ht) |}.

(** A sequence of [addNode] calls; a panic ends the program. *)
Fixpoint addNodes (ht : hashTable) (ns : list node) : option hashTable :=
  match ns with
  | [] => Some ht
  | n :: ns' => ht' ← addNode ht n; addNodes ht' ns'
  end.

(** ** The candidate shortlist *)

(** Modelled from the spec: [AppendUnique] is declared outside
    [hashtable.go]. It "adds each given contact to the shortlist only if no
    existing entry shares its Identifier; preserves insertion order
    otherwise". *)
Fixpoint AppendUnique (sl : shortList) (nodes : list node) : shortList :=
  match nodes with
  | [] => sl
  | vv :: nodes' =>
      let sl' :=
        if alreadyExists (Nodes sl) vv then sl
        else {| Nodes := Nodes sl ++ [vv]; Comparator := Comparator sl |} in
      AppendUnique sl' nodes'
  end.

(** The value of a byte slice read as a big-endian number. *)
Definition bytesToZ (s : list byte) : Z :=
  fold_left (fun acc x => acc * 256 + byteZ x) s 0.

(** Modelled from the spec: the XOR distance is declared outside
    [hashtable.go]. It is "the Kademlia distance metric between two
    Identifiers, computed bitwise; smaller means closer": the exclusive or
    of the two identifiers read as big-endian numbers. *)
Definition distance (id1 id2 : list byte) : Z :=
  Z.lxor (bytesToZ id1) (bytesToZ id2).

(** Modelled from the spec: the ordering of a shortlist ([Len], [Swap],
    [Less]) is declared outside [hashtable.go]. "Comparison key is XOR
    distance from a fixed query target"; "sorting must be stable". [Less]
    compares the distances of two contacts to the shortlist's
    [Comparator]; [sort_Sort] is the stable insertion sort for it. *)
Definition Less (target : list byte) (x y : node) : bool :=
  distance (ID x) target <? distance (ID y) target.

Fixpoint insertSorted (target : list byte) (x : node) (l : list node) : list node :=
  match l with
  | [] => [x]
  | y :: l' =>
      if Less target y x then y :: insertSorted target x l'
      else x :: y :: l'
  end.

Definition sortNodes (target : list byte) (l : list node) : list node :=
  foldr (insertSorted target) [] l.

Definition sort_Sort (sl : shortList) : shortList :=
  {| Nodes := sortNodes (Comparator sl) (Nodes sl);
     Comparator := Comparator sl |}.

(** ** The closest-contacts query *)

(** The loop [for len(indexList) < b] that builds the probe sequence. The
    loop is not structural; [fuel] bounds its iterations, and [None] is
    "out of fuel" (lemma [buildIndexList_terminates]: [b] iterations are
    always enough). *)
Fixpoint indexListLoop (fuel : nat) (indexList : list Z) (i j : Z)
  : option (list Z) :=
  if Z.of_nat (length indexList) <? b then
    match fuel with
    | O => None
    | S fuel' =>
        let indexList := if j <? b then indexList ++ [j] else indexList in
        let indexList := if i >=? 0 then indexList ++ [i] else indexList in
        indexListLoop fuel' indexList (i - 1) (j + 1)
    end
  else Some indexList.

Definition buildIndexList (idx : Z) : option (list Z) :=
  indexListLoop (Z.to_nat b) [idx] (idx - 1) (idx + 1).

(** [for j := 0; j < len(ignoredNodes); j++ {
       if bytes.Compare(ignoredNodes[j].ID, ignoredNodes[j].ID) == 0 { ignored = true } }]:
    each entry of the ignore list is compared with itself; the contact under
    consideration takes no part in the comparison. *)
Fixpoint isIgnored (ignoredNodes : list NetworkNode) (ignored : bool) : bool :=
  match ignoredNodes with
  | [] => ignored
  | n :: ignoredNodes' =>
      isIgnored ignoredNodes'
        (if bytes_Compare (ID n) (ID n) =? 0 then true else ignored)
  end.

(** The loop over the contacts of one bucket, on the state
    [(sl, leftToAdd)]; it breaks when [leftToAdd] reaches 0. *)
Fixpoint bucketLoop (ignoredNodes : list NetworkNode) (bucket : list node)
    (sl : shortList) (leftToAdd : Z) : shortList * Z :=
  match bucket with
  | [] => (sl, leftToAdd)
  | c :: bucket' =>
      let ignored := isIgnored ignoredNodes false in
      if negb ignored then
        let sl := AppendUnique sl [c] in
        let leftToAdd := leftToAdd - 1 in
        if leftToAdd =? 0 then (sl, leftToAdd)
        else bucketLoop ignoredNodes bucket' sl leftToAdd
      else bucketLoop ignoredNodes bucket' sl leftToAdd
  end.

(** The loop [for leftToAdd > 0 && len(indexList) > 0]. *)
Fixpoint probeLoop (ht : hashTable) (ignoredNodes : list NetworkNode)
    (indexList : list Z) (sl : shortList) (leftToAdd : Z) : option shortList :=
  if leftToAdd >? 0 then
    match indexList with
    | [] => Some sl
    | idx :: indexList' =>
        bucket ← sliceAt (RoutingTable ht) idx;
        let '(sl, leftToAdd) := bucketLoop ignoredNodes bucket sl leftToAdd in
        probeLoop ht ignoredNodes indexList' sl leftToAdd
    end
  else Some sl.

(** Everything before [sort.Sort(sl)]. *)
Definition collectContacts (ht : hashTable) (num : Z) (target : list byte)
    (ignoredNodes : list NetworkNode) : option shortList :=
  idx ← getBucketIndexFromDifferingBit (ID (Self ht)) target;
  indexList ← buildIndexList idx;
  probeLoop ht ignoredNodes indexList shortList_zero num.

Definition getClosestContacts (ht : hashTable) (num : Z) (target : list byte)
    (ignoredNodes : list NetworkNode) : option shortList :=
  sl ← collectContacts ht num target ignoredNodes;
  Some (sort_Sort sl).

(** ** Vocabulary of the specification *)

(** The byte-wise exclusive or of two identifiers. *)
Definition xorBytes (id1 id2 : list byte) : list byte :=
  zip_with byte_xor id1 id2.

(** Bit [p] of a byte slice, position 0 being the most significant bit of
    byte 0 and positions growing toward the least significant bit of the
    last byte. *)
Definition bitAt (s : list byte) (p : Z) : bool :=
  match sliceAt s (p / 8) with
  | Some x => Z.testbit (byteZ x) (7 - p mod 8)
  | None => false
  end.

(** [p] is the position of the first set bit of [s]. *)
Definition firstSetBit (s : list byte) (p : Z) : Prop :=
  0 <= p /\ bitAt s p = true /\ forall q, 0 <= q < p -> bitAt s q = false.

(** The 256 bytes, for properties of one or two bytes checked by
    evaluation. *)
Definition all_bytes : list byte :=
  omap (fun n => Byte.of_N (N.of_nat n)) (seq 0 256).

(** The sequence home, home+1, home-1, ..., home+n, home-n. *)
Definition alternating (home n : Z) : list Z :=
  home :: (d ← seqZ 1 n; [home + d; home - d]).

(** The alternating sequence around [home], with the indices outside
    [0, b) left out. Beyond distance [b - 1] no index is in range. *)
Definition probeSequence (home : Z) : list Z :=
  filter (fun i => 0 <= i < b) (alternating home (b - 1)).

(** The contacts of a bucket that the ignore loop lets through: all of
    them or none, since the loop does not look at the contact. *)
Definition eligible (ignoredNodes : list NetworkNode) (bucket : list node)
  : list node :=
  if isIgnored ignoredNodes false then [] else bucket.

(** The eligible contacts of the buckets named by [indexList], in that
    order and in storage order within a bucket. *)
Definition candidates (ht : hashTable) (ignoredNodes : list NetworkNode)
    (indexList : list Z) : list node :=
  i ← indexList; eligible ignoredNodes (default [] (sliceAt (RoutingTable ht) i)).

(** [l] is in non-decreasing order of XOR distance to [target]. *)
Fixpoint sortedByDistance (target : list byte) (l : list node) : bool :=
  match l with
  | [] => true
  | x :: l' =>
      match l' with
      | [] => true
      | y :: _ =>
          (distance (ID x) target <=? distance (ID y) target)
          && sortedByDistance target l'
      end
  end.

(** Identifiers of 20 bytes and a table of [b] buckets. *)
Definition wellFormed (ht : hashTable) (target : list byte) : Prop :=
  length (RoutingTable ht) = Z.to_nat b /\
  length (ID (Self ht)) = 20%nat /\ length target = 20%nat.

(** ** Invariants of the routing table *)

(** No bucket holds more than [k] contacts. *)
Definition bounded (ht : hashTable) : Prop :=
  Forall (fun bucket : list node => Z.of_nat (length bucket) <= k) (RoutingTable ht).

(** Every contact sits in the bucket that the distance metric assigns to
    its identifier. *)
Definition placed (ht : hashTable) : Prop :=
  forall (i : nat) (bucket : list node) (v : node),
    RoutingTable ht !! i = Some bucket -> v ∈ bucket ->
    getBucketIndexFromDifferingBit (ID (Self ht)) (ID v) = Some (Z.of_nat i).

(** No identifier names two contacts of the table. *)
Definition unique (ht : hashTable) : Prop :=
  NoDup (ID <$> concat (RoutingTable ht)).

(** The identifier [id] names a contact of some bucket. *)
Definition holds (ht : hashTable) (id : list byte) : Prop :=
  exists (bucket : list node) (v : node),
    bucket ∈ RoutingTable ht /\ v ∈ bucket /\ ID v = id.

(** What [addNode] makes of the target bucket: the bucket itself when the
    identifier is there already or the bucket is full, and the bucket with
    the contact at its end otherwise. *)
Definition bucketAfter (bucket : list node) (n : node) : list node :=
  if alreadyExists bucket n then bucket
  else if Z.of_nat (length bucket) <? k then bucket ++ [n]
  else bucket.

(** ** Example data *)

Definition zeroID : list byte := replicate 20 x00.

(** The identifier with the given last byte and 19 zero bytes before it. *)
Definition lowID (x : byte) : list byte := replicate 19 x00 ++ [x].

Definition contact (id : list byte) : node :=
  {| ID := id; IP := []; Port := 0 |}.

(** Stand-ins for the standard library in the examples: no address is
    parsed, a port is a non-empty run of decimal digits, and the random
    source either fills the buffer with [xff] bytes or fails. *)
Definition ParseIP_ex (s : string) : net_IP := [].

Fixpoint digits (s : string) (acc : Z) : option Z :=
  match s with
  | EmptyString => Some acc
  | String c s' =>
      let n := Z.of_nat (Ascii.nat_of_ascii c) in
      if (48 <=? n) && (n <=? 57) then digits s' (acc * 10 + (n - 48)) else None
  end.

Definition Atoi_ex (s : string) : Z * option error :=
  match s with
  | EmptyString => (0, Some (errors_New "invalid syntax"))
  | _ =>
      match digits s 0 with
      | Some v => (v, None)
      | None => (0, Some (errors_New "invalid syntax"))
      end
  end.

Definition rand_ok (buf : list byte) : list byte * option error :=
  (replicate (length buf) xff, None).

Definition rand_fails (buf : list byte) : list byte * option error :=
  (buf, Some (errors_New "entropy source unavailable")).

(** The table of a node whose identifier is 20 zero bytes. *)
Definition table0 : hashTable :=
  {| Self := {| ID := zeroID; IP := []; Port := 8080 |};
     RoutingTable := replicate 160 [] |}.

(** The bytes [from], [from + 1], ..., [from + count - 1]. *)
Definition bytesFrom (from count : nat) : list byte :=
  omap (fun i => Byte.of_N (N.of_nat i)) (seq from count).

Definition options0 : Options :=
  {| Options_ID := Some zeroID; Options_IP := "127.0.0.1"; Options_Port := "8080" |}.

(** [table0] after [addNode] of a contact that carries the table's own
    identifier. *)
Definition table0_self : hashTable :=
  {| Self := Self table0;
     RoutingTable := <[0%nat := [contact zeroID]]> (RoutingTable table0) |}.

(** Twenty contacts of bucket 5 (last byte 32 to 51), and [table0] after
    their insertion. *)
Definition twenty : list node := map (fun x => contact (lowID x)) (bytesFrom 32 20).

Definition table0_full : hashTable :=
  {| Self := Self table0;
     RoutingTable := <[5%nat := twenty]> (RoutingTable table0) |}.

(** [table0] with one contact, of identifier 0...01, in bucket 0. *)
Definition table0_one : hashTable :=
  {| Self := Self table0;
     RoutingTable := <[0%nat := [contact (lowID x01)]]> (RoutingTable table0) |}.

(** [table0] with the contacts 0...03 and 0...02, in this order, in
    bucket 1. *)
Definition table0_two : hashTable :=
  {| Self := Self table0;
     RoutingTable :=
       <[1%nat := [contact (lowID x03); contact (lowID x02)]]> (RoutingTable table0) |}.

(** The identifier 0...0400, of bucket 10. *)
Definition id1024 : list byte := replicate 18 x00 ++ [x04; x00].

(** [table0] with contacts in the buckets 0, 5 and 10 only. *)
Definition table0_three : hashTable :=
  {| Self := Self table0;
     RoutingTable :=
       <[0%nat := [contact (lowID x01)]]>
         (<[5%nat := [contact (lowID x21); contact (lowID x20)]]>
            (<[10%nat := [contact id1024]]> (RoutingTable table0))) |}.

(** * Properties *)

(** ** Bytes *)

Lemma elem_of_all_bytes (x : byte) : x ∈ all_bytes.
Proof.
  apply (bool_decide_unpack _).
  destruct x; vm_compute; exact I.
Qed.

Lemma byte_forall (P : byte -> bool) :
  forallb P all_bytes = true -> forall x, P x = true.
Proof.
  intros H x. rewrite forallb_forall in H.
  apply H, list_elem_of_In, elem_of_all_bytes.
Qed.

Lemma byte_forall2 (P : byte -> byte -> bool) :
  forallb (fun x => forallb (P x) all_bytes) all_bytes = true ->
  forall x y, P x y = true.
Proof.
  intros H x y.
  apply (byte_forall (P x)), (byte_forall (fun x => forallb (P x) all_bytes) H).
Qed.

Lemma byteZ_range (x : byte) : 0 <= byteZ x < 256.
Proof. unfold byteZ. pose proof (Byte.to_N_bounded x). lia. Qed.

Lemma byteZ_inj (x y : byte) : byteZ x = byteZ y -> x = y.
Proof.
  unfold byteZ. intros H. apply N2Z.inj in H.
  apply (f_equal Byte.of_N) in H. rewrite !Byte.of_to_N in H. congruence.
Qed.

Lemma byteZ_xor (x y : byte) : byteZ (byte_xor x y) = Z.lxor (byteZ x) (byteZ y).
Proof.
  apply Z.eqb_eq.
  apply (byte_forall2 (fun x y => byteZ (byte_xor x y) =? Z.lxor (byteZ x) (byteZ y))).
  vm_compute. reflexivity.
Qed.

Lemma byte_xor_x00 (x y : byte) : byte_xor x y = x00 <-> x = y.
Proof.
  split.
  - intros H. apply (f_equal byteZ) in H. rewrite byteZ_xor in H.
    change (byteZ x00) with 0 in H. apply Z.lxor_eq in H.
    by apply byteZ_inj.
  - intros ->. apply byteZ_inj. rewrite byteZ_xor, Z.lxor_nilpotent. reflexivity.
Qed.

Lemma hasBit_testbit (x : byte) (i : Z) :
  0 <= i < 8 -> hasBit x i = Z.testbit (byteZ x) (7 - i).
Proof.
  intros Hi.
  assert (Hcases : i = 0 \/ i = 1 \/ i = 2 \/ i = 3 \/ i = 4 \/ i = 5 \/ i = 6 \/ i = 7)
    by lia.
  apply eqb_prop.
  destruct Hcases as [-> | [-> | [-> | [-> | [-> | [-> | [-> | ->]]]]]]];
    match goal with
    | |- context [hasBit _ ?c] =>
        apply (byte_forall (fun x => Bool.eqb (hasBit x c) (Z.testbit (byteZ x) (7 - c))))
    end; vm_compute; reflexivity.
Qed.

Lemma byte_no_bit_x00 (x : byte) :
  (forall i, 0 <= i < 8 -> Z.testbit (byteZ x) (7 - i) = false) -> x = x00.
Proof.
  intros H. apply byteZ_inj. change (byteZ x00) with 0.
  apply Z.bits_inj'. intros n Hn. rewrite Z.bits_0.
  destruct (Z_lt_le_dec n 8) as [Hlt | Hge].
  - replace n with (7 - (7 - n)) by lia. apply H. lia.
  - pose proof (byteZ_range x) as Hx.
    destruct (Z.eq_dec (byteZ x) 0) as [-> | Hne]; [apply Z.bits_0 |].
    apply Z.bits_above_log2; [lia |].
    assert (Z.log2 (byteZ x) < 8); [| lia].
    apply Z.log2_lt_pow2; lia.
Qed.

(** ** The distance metric *)

Lemma sliceAt_Some {A : Type} (s : list A) (i : Z) :
  0 <= i < Z.of_nat (length s) -> exists x, sliceAt s i = Some x.
Proof.
  intros Hi. unfold sliceAt.
  destruct (Z.ltb_spec i 0) as [? | _]; [lia |].
  apply lookup_lt_is_Some_2. lia.
Qed.

Lemma sliceAt_lt {A : Type} (s : list A) (i : Z) (x : A) :
  sliceAt s i = Some x -> 0 <= i < Z.of_nat (length s).
Proof.
  unfold sliceAt. destruct (Z.ltb_spec i 0) as [Hneg | Hpos]; [discriminate |].
  intros H. apply lookup_lt_Some in H. lia.
Qed.

Lemma sliceAt_xorBytes (id1 id2 : list byte) (j : Z) (x y : byte) :
  sliceAt id1 j = Some x -> sliceAt id2 j = Some y ->
  sliceAt (xorBytes id1 id2) j = Some (byte_xor x y).
Proof.
  unfold sliceAt, xorBytes. destruct (j <? 0); [discriminate |].
  intros H1 H2. rewrite lookup_zip_with, H1. simpl. rewrite H2. reflexivity.
Qed.

Lemma length_xorBytes (id1 id2 : list byte) :
  length (xorBytes id1 id2) = Nat.min (length id1) (length id2).
Proof. apply length_zip_with. Qed.

Lemma bitAt_byte (s : list byte) (j i : Z) (x : byte) :
  sliceAt s j = Some x -> 0 <= i < 8 ->
  bitAt s (j * 8 + i) = Z.testbit (byteZ x) (7 - i).
Proof.
  intros Hx Hi. unfold bitAt.
  replace ((j * 8 + i) / 8) with j by (Z.div_mod_to_equations; lia).
  replace ((j * 8 + i) mod 8) with i by (Z.div_mod_to_equations; lia).
  rewrite Hx. reflexivity.
Qed.

Lemma bitAt_beyond (s : list byte) (p : Z) :
  Z.of_nat (length s) * 8 <= p -> bitAt s p = false.
Proof.
  intros Hp. unfold bitAt.
  destruct (sliceAt s (p / 8)) as [x |] eqn:Hx; [| reflexivity].
  apply sliceAt_lt in Hx. Z.div_mod_to_equations. lia.
Qed.

Lemma firstSetBit_unique (s : list byte) (p q : Z) :
  firstSetBit s p -> firstSetBit s q -> p = q.
Proof.
  intros (Hp0 & Hp & Hpq) (Hq0 & Hq & Hqp).
  destruct (Z.lt_trichotomy p q) as [Hlt | [Heq | Hgt]]; [| exact Heq |].
  - rewrite Hqp in Hp by lia. discriminate.
  - rewrite Hpq in Hq by lia. discriminate.
Qed.

(** The inner loop finds the first set bit of the byte, if there is one. *)
Lemma bitLoop_spec (z : byte) (j : Z) (n : nat) (i0 : Z) :
  0 <= i0 -> i0 + Z.of_nat n = 8 ->
  match bitLoop z j n i0 with
  | Some r =>
      exists i, i0 <= i < 8 /\ r = b - (j * 8 + i) - 1 /\
        Z.testbit (byteZ z) (7 - i) = true /\
        forall i', i0 <= i' < i -> Z.testbit (byteZ z) (7 - i') = false
  | None => forall i', i0 <= i' < 8 -> Z.testbit (byteZ z) (7 - i') = false
  end.
Proof.
  revert i0. induction n as [| n IH]; intros i0 H0 Hn; simpl.
  - intros i' Hi'. lia.
  - rewrite hasBit_testbit by lia.
    destruct (Z.testbit (byteZ z) (7 - i0)) eqn:Hbit.
    + exists i0. repeat split; try lia. exact Hbit.
    + specialize (IH (i0 + 1) ltac:(lia) ltac:(lia)).
      destruct (bitLoop z j n (i0 + 1)) as [r |].
      * destruct IH as (i & Hi & Hr & Hset & Hclear).
        exists i. repeat split; try lia; [exact Hset |].
        intros i' Hi'. destruct (Z.eq_dec i' i0) as [-> | Hne]; [exact Hbit |].
        apply Hclear. lia.
      * intros i' Hi'. destruct (Z.eq_dec i' i0) as [-> | Hne]; [exact Hbit |].
        apply IH. lia.
Qed.

(** The outer loop: either it stops at the first set bit [p] of the
    exclusive or and returns [b - 1 - p], or no bit is set and it returns 0. *)
Lemma byteLoop_spec (id1 id2 : list byte) (n : nat) (j : Z) :
  0 <= j -> j + Z.of_nat n = Z.of_nat (length id1) ->
  (length id1 <= length id2)%nat ->
  (forall q, 0 <= q < j * 8 -> bitAt (xorBytes id1 id2) q = false) ->
  (exists p, j * 8 <= p < Z.of_nat (length id1) * 8 /\
     firstSetBit (xorBytes id1 id2) p /\
     byteLoop id1 id2 n j = Some (b - 1 - p)) \/
  ((forall q, 0 <= q -> bitAt (xorBytes id1 id2) q = false) /\
     byteLoop id1 id2 n j = Some 0).
Proof.
  intros Hj Hn Hlen. revert j Hj Hn.
  induction n as [| n IH]; intros j Hj Hn Hclear; cbn [byteLoop].
  - right. split; [| reflexivity].
    intros q Hq. destruct (Z_lt_le_dec q (j * 8)) as [Hlt | Hge].
    + apply Hclear. lia.
    + apply bitAt_beyond. rewrite length_xorBytes. lia.
  - destruct (sliceAt_Some id1 j) as [x Hx]; [lia |].
    destruct (sliceAt_Some id2 j) as [y Hy]; [lia |].
    rewrite Hx, Hy. cbn [mbind option_bind].
    pose proof (sliceAt_xorBytes _ _ _ _ _ Hx Hy) as Hxy.
    pose proof (bitLoop_spec (byte_xor x y) j 8 0 ltac:(lia) ltac:(lia)) as Hbits.
    destruct (bitLoop (byte_xor x y) j 8 0) as [r |].
    + destruct Hbits as (i & Hi & -> & Hset & Hbefore).
      left. exists (j * 8 + i). split; [lia |]. split.
      * split; [lia |]. split.
        -- rewrite (bitAt_byte _ _ _ _ Hxy) by lia. exact Hset.
        -- intros q Hq. destruct (Z_lt_le_dec q (j * 8)) as [Hlt | Hge].
           ++ apply Hclear. lia.
           ++ replace q with (j * 8 + (q - j * 8)) by lia.
              rewrite (bitAt_byte _ _ _ _ Hxy) by lia. apply Hbefore. lia.
      * f_equal. lia.
    + destruct (IH (j + 1)) as [(p & Hp & Hfirst & Hres) | Hzero]; try lia.
      * intros q Hq. destruct (Z_lt_le_dec q (j * 8)) as [Hlt | Hge].
        -- apply Hclear. lia.
        -- replace q with (j * 8 + (q - j * 8)) by lia.
           rewrite (bitAt_byte _ _ _ _ Hxy) by lia. apply Hbits. lia.
      * left. exists p. split; [lia |]. by split.
      * by right.
Qed.

Lemma getBucketIndex_cases (id1 id2 : list byte) :
  (length id1 <= length id2)%nat ->
  (exists p, 0 <= p < Z.of_nat (length id1) * 8 /\
     firstSetBit (xorBytes id1 id2) p /\
     getBucketIndexFromDifferingBit id1 id2 = Some (b - 1 - p)) \/
  ((forall q, 0 <= q -> bitAt (xorBytes id1 id2) q = false) /\
     getBucketIndexFromDifferingBit id1 id2 = Some 0).
Proof.
  intros Hlen. unfold getBucketIndexFromDifferingBit.
  destruct (byteLoop_spec id1 id2 (length id1) 0) as [(p & Hp & H) | H];
    try lia.
  - left. exists p. split; [lia | exact H].
  - by right.
Qed.

(** Two identifiers of the same length whose exclusive or has no set bit
    are equal. *)
Lemma xorBytes_clear_eq (id1 id2 : list byte) :
  length id1 = length id2 ->
  (forall q, 0 <= q -> bitAt (xorBytes id1 id2) q = false) -> id1 = id2.
Proof.
  intros Hlen Hclear. apply list_eq_same_length with (length id1); try done.
  intros i x y Hi Hx Hy.
  apply byte_xor_x00, byte_no_bit_x00. intros i' Hi'.
  assert (Hxy : sliceAt (xorBytes id1 id2) (Z.of_nat i) = Some (byte_xor x y)).
  { apply sliceAt_xorBytes; unfold sliceAt;
      (destruct (Z.ltb_spec (Z.of_nat i) 0); [lia |]); by rewrite Nat2Z.id. }
  rewrite <- (bitAt_byte _ _ _ _ Hxy) by lia. apply Hclear. lia.
Qed.

Lemma bitAt_xorBytes_diag (id : list byte) (q : Z) :
  bitAt (xorBytes id id) q = false.
Proof.
  unfold bitAt. destruct (sliceAt (xorBytes id id) (q / 8)) as [z |] eqn:Hz;
    [| reflexivity].
  assert (z = x00) as ->.
  { unfold sliceAt, xorBytes in Hz. destruct (q / 8 <? 0); [discriminate |].
    rewrite lookup_zip_with in Hz.
    destruct (id !! Z.to_nat (q / 8)) as [x |]; simpl in Hz; [| discriminate].
    injection Hz as <-. by apply byte_xor_x00. }
  apply Z.bits_0.
Qed.

(** C6. For two 20-byte identifiers that differ, the bucket index is
    [b - 1 - p = 159 - p], where [p] is the position of the first set bit
    of their byte-wise exclusive or, counted from the most significant bit
    of byte 0; for identical identifiers it is 0, and no panic occurs. *)
Theorem getBucketIndexFromDifferingBit_spec (id1 id2 : list byte) :
  length id1 = 20%nat -> length id2 = 20%nat ->
  (id1 <> id2 ->
     exists p, 0 <= p < b /\ firstSetBit (xorBytes id1 id2) p /\
       b - 1 - p = 159 - p /\
       getBucketIndexFromDifferingBit id1 id2 = Some (159 - p)) /\
  (forall p, firstSetBit (xorBytes id1 id2) p ->
     getBucketIndexFromDifferingBit id1 id2 = Some (159 - p)) /\
  (id1 = id2 -> getBucketIndexFromDifferingBit id1 id2 = Some 0).
Proof.
  intros H1 H2.
  destruct (getBucketIndex_cases id1 id2) as [(p & Hp & Hfirst & Hres) | [Hclear Hres]];
    [lia | |].
  - split; [| split].
    + intros _. exists p. unfold b in *. repeat split; try lia; try apply Hfirst.
      exact Hres.
    + intros q Hq. rewrite (firstSetBit_unique _ _ _ Hq Hfirst). exact Hres.
    + intros ->. destruct Hfirst as (_ & Hset & _).
      rewrite bitAt_xorBytes_diag in Hset. discriminate.
  - split; [| split].
    + intros Hne. exfalso. apply Hne, xorBytes_clear_eq; [congruence | exact Hclear].
    + intros q (Hq0 & Hset & _). rewrite Hclear in Hset by lia. discriminate.
    + intros _. exact Hres.
Qed.

Lemma getBucketIndexFromDifferingBit_spec_witness :
  (exists p, 0 <= p < b /\ firstSetBit (xorBytes zeroID (lowID x05)) p /\
     b - 1 - p = 159 - p /\
     getBucketIndexFromDifferingBit zeroID (lowID x05) = Some (159 - p)) /\
  getBucketIndexFromDifferingBit zeroID zeroID = Some 0.
Proof.
  split.
  - apply (getBucketIndexFromDifferingBit_spec zeroID (lowID x05));
      [reflexivity | reflexivity | discriminate].
  - apply (getBucketIndexFromDifferingBit_spec zeroID zeroID);
      reflexivity.
Defined.

Example getBucketIndex_low5 :
  getBucketIndexFromDifferingBit zeroID (lowID x05) = Some 2.
Proof. reflexivity. Qed.

Example getBucketIndex_high :
  getBucketIndexFromDifferingBit zeroID (x80 :: replicate 19 x00) = Some 159.
Proof. reflexivity. Qed.

(** Reading [id2] past its end panics. *)
Example getBucketIndex_short :
  getBucketIndexFromDifferingBit zeroID (replicate 19 x00) = None.
Proof. reflexivity. Qed.

(** ** Insertion *)

Lemma bytes_Compare_eq (x y : list byte) : bytes_Compare x y = 0 <-> x = y.
Proof.
  revert y. induction x as [| c x IH]; intros [| d y]; simpl; try done.
  destruct (Z.compare_spec (byteZ c) (byteZ d)) as [Heq | Hlt | Hgt].
  - apply byteZ_inj in Heq as ->. rewrite IH. split; congruence.
  - split; [discriminate |]. intros [= -> _]. lia.
  - split; [discriminate |]. intros [= -> _]. lia.
Qed.

Lemma bytes_Compare_refl (x : list byte) : bytes_Compare x x = 0.
Proof. by apply bytes_Compare_eq. Qed.

Lemma alreadyExists_true (bucket : list node) (n : node) :
  alreadyExists bucket n = true <-> exists v, v ∈ bucket /\ ID v = ID n.
Proof.
  induction bucket as [| v bucket IH]; simpl.
  - split; [discriminate |]. intros (v & Hv & _). by apply elem_of_nil in Hv.
  - destruct (Z.eqb_spec (bytes_Compare (ID v) (ID n)) 0) as [Heq | Hne].
    + apply bytes_Compare_eq in Heq. split; [| done].
      intros _. exists v. split; [left | exact Heq].
    + rewrite IH. split.
      * intros (w & Hw & Hid). exists w. split; [by right | exact Hid].
      * intros (w & Hw & Hid). apply elem_of_cons in Hw as [-> | Hw].
        -- exfalso. apply Hne. by apply bytes_Compare_eq.
        -- by exists w.
Qed.

Lemma alreadyExists_false (bucket : list node) (n : node) :
  alreadyExists bucket n = false <-> forall v, v ∈ bucket -> ID v <> ID n.
Proof.
  rewrite <- Bool.not_true_iff_false, alreadyExists_true. split.
  - intros H v Hv Hid. apply H. by exists v.
  - intros H (v & Hv & Hid). by apply (H v).
Qed.

Lemma sliceAt_lookup {A : Type} (s : list A) (i : Z) (x : A) :
  sliceAt s i = Some x -> 0 <= i /\ s !! Z.to_nat i = Some x.
Proof.
  unfold sliceAt. destruct (Z.ltb_spec i 0) as [Hneg | Hpos]; [discriminate |].
  by split.
Qed.

Lemma bind_eq_Some {A B : Type} (o : option A) (x : A) (f : A -> option B) :
  o = Some x -> o ≫= f = f x.
Proof. by intros ->. Qed.

Lemma hashTable_eta (ht : hashTable) :
  {| Self := Self ht; RoutingTable := RoutingTable ht |} = ht.
Proof. by destruct ht. Qed.

(** The three ways a call of [addNode] returns: the identifier is already
    in its bucket; the bucket has room and the contact is appended; the
    bucket is full and the appended contact is cut off again. *)
Lemma addNode_cases (ht ht' : hashTable) (n : node) :
  addNode ht n = Some ht' ->
  exists idx bucket,
    getBucketIndexFromDifferingBit (ID (Self ht)) (ID n) = Some idx /\
    0 <= idx /\ RoutingTable ht !! Z.to_nat idx = Some bucket /\
    ((alreadyExists bucket n = true /\ ht' = ht) \/
     (alreadyExists bucket n = false /\ Z.of_nat (length bucket) < k /\
        ht' = {| Self := Self ht;
                 RoutingTable := <[Z.to_nat idx := bucket ++ [n]]> (RoutingTable ht) |}) \/
     (alreadyExists bucket n = false /\ k <= Z.of_nat (length bucket) /\ ht' = ht)).
Proof.
  unfold addNode. intros H.
  destruct (getBucketIndexFromDifferingBit (ID (Self ht)) (ID n)) as [idx |];
    [| discriminate].
  cbn [mbind option_bind] in H.
  destruct (sliceAt (RoutingTable ht) idx) as [bucket |] eqn:Hbucket;
    [| discriminate].
  cbn [mbind option_bind] in H.
  apply sliceAt_lookup in Hbucket as [Hidx Hbucket].
  exists idx, bucket. repeat split; try done.
  destruct (alreadyExists bucket n).
  - left. split; congruence.
  - right. rewrite length_app in H. cbn [length] in H.
    destruct (Z.gtb_spec (Z.of_nat (length bucket + 1)) k) as [Hfull | Hroom].
    + right. split; [done |]. split; [lia |].
      replace (length bucket + 1 - 1)%nat with (length bucket) in H by lia.
      rewrite take_app_length, list_insert_id in H by done.
      rewrite hashTable_eta in H. congruence.
    + left. split; [done |]. split; [lia |]. congruence.
Qed.

Lemma addNode_Self (ht ht' : hashTable) (n : node) :
  addNode ht n = Some ht' -> Self ht' = Self ht.
Proof.
  intros H. apply addNode_cases in H
    as (idx & bucket & _ & _ & _ & [[_ ->] | [(_ & _ & ->) | (_ & _ & ->)]]); done.
Qed.

Lemma addNode_length (ht ht' : hashTable) (n : node) :
  addNode ht n = Some ht' ->
  length (RoutingTable ht') = length (RoutingTable ht).
Proof.
  intros H. apply addNode_cases in H
    as (idx & bucket & _ & _ & _ & [[_ ->] | [(_ & _ & ->) | (_ & _ & ->)]]);
    try done.
  apply length_insert.
Qed.

Lemma addNode_bounded (ht ht' : hashTable) (n : node) :
  bounded ht -> addNode ht n = Some ht' -> bounded ht'.
Proof.
  intros Hb H. apply addNode_cases in H
    as (idx & bucket & _ & _ & _ & [[_ ->] | [(_ & Hroom & ->) | (_ & _ & ->)]]);
    try done.
  unfold bounded in *. cbn [RoutingTable].
  apply Forall_insert; [exact Hb |].
  rewrite length_app. cbn [length]. lia.
Qed.

Lemma addNode_placed (ht ht' : hashTable) (n : node) :
  placed ht -> addNode ht n = Some ht' -> placed ht'.
Proof.
  intros Hp H. apply addNode_cases in H
    as (idx & bucket & Hidx & Hpos & Hbucket &
        [[_ ->] | [(_ & _ & ->) | (_ & _ & ->)]]); try done.
  intros i bucket' v. cbn [RoutingTable Self].
  destruct (decide (i = Z.to_nat idx)) as [-> | Hne].
  - rewrite list_lookup_insert_eq by (by eapply lookup_lt_Some).
    intros [= <-] Hv. apply elem_of_app in Hv as [Hv | Hv].
    + by apply (Hp _ bucket).
    + apply list_elem_of_singleton in Hv as ->. rewrite Hidx. f_equal. lia.
  - rewrite list_lookup_insert_ne by done. apply Hp.
Qed.

(** A call adds no identifier other than that of its argument. *)
Lemma addNode_holds (ht ht' : hashTable) (n : node) (id : list byte) :
  addNode ht n = Some ht' -> holds ht' id -> holds ht id \/ id = ID n.
Proof.
  intros H. apply addNode_cases in H
    as (idx & bucket & _ & _ & Hbucket &
        [[_ ->] | [(_ & _ & ->) | (_ & _ & ->)]]); try by left.
  intros (bucket' & v & Hin & Hv & Hid). cbn [RoutingTable] in Hin.
  apply list_elem_of_lookup in Hin as [i Hi].
  destruct (decide (i = Z.to_nat idx)) as [-> | Hne].
  - rewrite list_lookup_insert_eq in Hi by (by eapply lookup_lt_Some).
    injection Hi as <-. apply elem_of_app in Hv as [Hv | Hv].
    + left. exists bucket, v. split; [| done].
      apply list_elem_of_lookup. by exists (Z.to_nat idx).
    + apply list_elem_of_singleton in Hv as ->. by right.
  - rewrite list_lookup_insert_ne in Hi by done.
    left. exists bucket', v. split; [| done].
    apply list_elem_of_lookup. by exists i.
Qed.

(** *** Sequences of calls *)

Lemma addNodes_ind (P : hashTable -> Prop) (Q : node -> Prop) :
  (forall ht ht' n, P ht -> Q n -> addNode ht n = Some ht' -> P ht') ->
  forall ns ht ht', P ht -> Forall Q ns -> addNodes ht ns = Some ht' -> P ht'.
Proof.
  intros Hstep. induction ns as [| n ns IH]; intros ht ht' HP HQ; cbn [addNodes].
  - congruence.
  - destruct (addNode ht n) as [ht1 |] eqn:Hadd; [| discriminate].
    cbn [mbind option_bind]. apply Forall_cons in HQ as [Hn HQ].
    apply IH; [| exact HQ]. by apply (Hstep ht ht1 n).
Qed.

Lemma addNodes_Self (ns : list node) (ht ht' : hashTable) :
  addNodes ht ns = Some ht' -> Self ht' = Self ht.
Proof.
  intros H.
  apply (addNodes_ind (fun h => Self h = Self ht) (fun _ => True)) with ns ht;
    try done.
  - intros h h' n Hh _ Hadd. rewrite <- Hh. by eapply addNode_Self.
  - by apply Forall_true.
Qed.

Lemma addNodes_length (ns : list node) (ht ht' : hashTable) :
  addNodes ht ns = Some ht' ->
  length (RoutingTable ht') = length (RoutingTable ht).
Proof.
  intros H.
  apply (addNodes_ind (fun h => length (RoutingTable h) = length (RoutingTable ht))
           (fun _ => True)) with ns ht; try done.
  - intros h h' n Hh _ Hadd. rewrite <- Hh. by eapply addNode_length.
  - by apply Forall_true.
Qed.

Lemma addNodes_bounded (ns : list node) (ht ht' : hashTable) :
  bounded ht -> addNodes ht ns = Some ht' -> bounded ht'.
Proof.
  intros Hb H.
  apply (addNodes_ind bounded (fun _ => True)) with ns ht; try done.
  - intros h h' n Hh _ Hadd. by eapply addNode_bounded.
  - by apply Forall_true.
Qed.

Lemma addNodes_placed (ns : list node) (ht ht' : hashTable) :
  placed ht -> addNodes ht ns = Some ht' -> placed ht'.
Proof.
  intros Hp H.
  apply (addNodes_ind placed (fun _ => True)) with ns ht; try done.
  - intros h h' n Hh _ Hadd. by eapply addNode_placed.
  - by apply Forall_true.
Qed.

Lemma addNodes_holds (id : list byte) (ns : list node) (ht ht' : hashTable) :
  ~ holds ht id -> Forall (fun n => ID n <> id) ns ->
  addNodes ht ns = Some ht' -> ~ holds ht' id.
Proof.
  apply (addNodes_ind (fun h => ~ holds h id) (fun n => ID n <> id)).
  intros h h' n Hh Hn Hadd Hholds.
  destruct (addNode_holds _ _ _ _ Hadd Hholds) as [Hold | ->]; done.
Qed.

Lemma concat_insert_app {A : Type} (l : list (list A)) (i : nat) (x y : list A) :
  l !! i = Some x -> concat (<[i := x ++ y]> l) ≡ₚ concat l ++ y.
Proof.
  revert i. induction l as [| z l IH]; intros [| i]; cbn; try done.
  - intros [= ->]. rewrite <- !app_assoc. apply Permutation_app_head.
    apply Permutation_app_comm.
  - intros Hi. rewrite (IH _ Hi), app_assoc. reflexivity.
Qed.

Lemma elem_of_concat {A : Type} (x : A) (ls : list (list A)) :
  x ∈ concat ls <-> exists l, x ∈ l /\ l ∈ ls.
Proof.
  induction ls as [| l ls IH]; cbn [concat].
  - split; [by intros ?%elem_of_nil |]. by intros (l & _ & ?%elem_of_nil).
  - rewrite elem_of_app, IH. split.
    + intros [Hx | (l' & Hx & Hl')]; [exists l | exists l']; split; try done;
        [left | by right].
    + intros (l' & Hx & Hl'). apply elem_of_cons in Hl' as [-> | Hl'];
        [by left | right; by exists l'].
Qed.

Lemma addNode_unique (ht ht' : hashTable) (n : node) :
  placed ht -> unique ht -> addNode ht n = Some ht' -> unique ht'.
Proof.
  intros Hp Hu H. apply addNode_cases in H
    as (idx & bucket & Hidx & Hpos & Hbucket &
        [[_ ->] | [(Hnew & _ & ->) | (_ & _ & ->)]]); try done.
  unfold unique in *. cbn [RoutingTable].
  rewrite (concat_insert_app _ _ _ _ Hbucket), fmap_app.
  apply NoDup_app. split; [exact Hu |]. split; [| apply NoDup_singleton].
  intros id Hid Hn. apply list_elem_of_singleton in Hn as ->.
  apply list_elem_of_fmap in Hid as (v & Hv & Hin).
  apply elem_of_concat in Hin as (bucket' & Hin & Hbucket').
  apply list_elem_of_lookup in Hbucket' as [i Hi].
  pose proof (Hp i bucket' v Hi Hin) as Hhome. rewrite <- Hv, Hidx in Hhome.
  injection Hhome as ->. rewrite Nat2Z.id, Hi in Hbucket.
  injection Hbucket as ->.
  rewrite alreadyExists_false in Hnew. by apply (Hnew v).
Qed.

Lemma addNodes_unique (ns : list node) (ht ht' : hashTable) :
  placed ht -> unique ht -> addNodes ht ns = Some ht' -> unique ht'.
Proof.
  intros Hp Hu H.
  apply (addNodes_ind (fun h => placed h /\ unique h) (fun _ => True)) with ns ht;
    try done.
  - intros h h' n [Hph Huh] _ Hadd. split.
    + by eapply addNode_placed.
    + by eapply addNode_unique.
  - by apply Forall_true.
Qed.

(** *** Totality on well-formed identifiers *)

Lemma getBucketIndex_range (id1 id2 : list byte) :
  (length id1 <= 20)%nat -> (length id1 <= length id2)%nat ->
  exists idx, getBucketIndexFromDifferingBit id1 id2 = Some idx /\ 0 <= idx < b.
Proof.
  intros H1 H2.
  destruct (getBucketIndex_cases id1 id2 H2) as [(p & Hp & _ & Hres) | [_ Hres]].
  - exists (b - 1 - p). split; [exact Hres |]. unfold b. lia.
  - exists 0. split; [exact Hres |]. unfold b. lia.
Qed.

Lemma addNode_total (ht : hashTable) (n : node) :
  length (RoutingTable ht) = 160%nat ->
  (length (ID (Self ht)) <= 20)%nat ->
  (length (ID (Self ht)) <= length (ID n))%nat ->
  exists ht', addNode ht n = Some ht'.
Proof.
  intros Hrt Hself Hn. unfold addNode.
  destruct (getBucketIndex_range _ _ Hself Hn) as (idx & -> & Hidx).
  cbn [mbind option_bind].
  destruct (sliceAt_Some (RoutingTable ht) idx) as [bucket ->];
    [unfold b in Hidx; lia |].
  cbn [mbind option_bind]. destruct (alreadyExists bucket n); eauto.
Qed.

Lemma addNodes_total (ns : list node) (ht : hashTable) :
  length (RoutingTable ht) = 160%nat ->
  (length (ID (Self ht)) <= 20)%nat ->
  Forall (fun n => (length (ID (Self ht)) <= length (ID n))%nat) ns ->
  exists ht', addNodes ht ns = Some ht'.
Proof.
  revert ht. induction ns as [| n ns IH]; intros ht Hrt Hself Hns; cbn [addNodes].
  - eauto.
  - apply Forall_cons in Hns as [Hn Hns].
    destruct (addNode_total ht n Hrt Hself Hn) as [ht1 Hadd]. rewrite Hadd.
    cbn [mbind option_bind].
    apply IH.
    + by rewrite (addNode_length _ _ _ Hadd).
    + by rewrite (addNode_Self _ _ _ Hadd).
    + by rewrite (addNode_Self _ _ _ Hadd).
Qed.

(** ** Construction *)

Section ConstructionProperties.

Variable ParseIP : string -> net_IP.
Variable Atoi : string -> Z * option error.
Variable rand_Read : list byte -> list byte * option error.

Lemma appendBuckets_replicate (n : nat) (rt : list (list node)) :
  appendBuckets n rt = rt ++ replicate n [].
Proof.
  revert rt. induction n as [| n IH]; intros rt; cbn [appendBuckets replicate].
  - by rewrite app_nil_r.
  - rewrite IH, <- app_assoc. reflexivity.
Qed.

Lemma newHashTable_Some (options : Options) (ht : hashTable) (e : option error) :
  newHashTable ParseIP Atoi rand_Read options = Returns (Some ht, e) ->
  e = None /\ RoutingTable ht = replicate 160 [].
Proof.
  unfold newHashTable. intros H.
  destruct (match Options_ID options with
            | Some id => Returns id
            | None => match newID rand_Read with
                      | (_, Some err) => Panics err
                      | (id, None) => Returns id
                      end
            end) as [id | err]; [| discriminate].
  destruct ((Options_IP options =? "")%string || (Options_Port options =? "")%string);
    [discriminate |].
  destruct (Atoi (Options_Port options)) as [port [err |]]; [discriminate |].
  injection H as <- <-. split; reflexivity.
Qed.

Lemma fresh_bounded (options : Options) (ht : hashTable) (e : option error) :
  newHashTable ParseIP Atoi rand_Read options = Returns (Some ht, e) ->
  bounded ht.
Proof.
  intros H. apply newHashTable_Some in H as [_ Hrt]. unfold bounded.
  rewrite Hrt. apply Forall_replicate. unfold k. simpl. lia.
Qed.

Lemma fresh_placed (options : Options) (ht : hashTable) (e : option error) :
  newHashTable ParseIP Atoi rand_Read options = Returns (Some ht, e) ->
  placed ht.
Proof.
  intros H. apply newHashTable_Some in H as [_ Hrt].
  intros i bucket v Hi Hv. rewrite Hrt in Hi.
  apply lookup_replicate in Hi as [-> _]. by apply elem_of_nil in Hv.
Qed.

Lemma fresh_holds (options : Options) (ht : hashTable) (e : option error) (id : list byte) :
  newHashTable ParseIP Atoi rand_Read options = Returns (Some ht, e) ->
  ~ holds ht id.
Proof.
  intros H. apply newHashTable_Some in H as [_ Hrt].
  intros (bucket & v & Hin & Hv & _). rewrite Hrt in Hin.
  apply elem_of_replicate in Hin as [-> _]. by apply elem_of_nil in Hv.
Qed.

Lemma fresh_unique (options : Options) (ht : hashTable) (e : option error) :
  newHashTable ParseIP Atoi rand_Read options = Returns (Some ht, e) ->
  unique ht.
Proof.
  intros H. apply newHashTable_Some in H as [_ Hrt]. unfold unique.
  rewrite Hrt. vm_compute. apply NoDup_nil_2.
Qed.

End ConstructionProperties.

(** C9, as amended. If an identifier is supplied, or its random generation
    succeeds, [newHashTable] returns an error and no table when the IP or
    the Port option is the empty string or the Port does not parse; with
    both present and a Port that parses it returns a table; a returned
    table comes with no error, has exactly 160 buckets, all empty, and
    keeps 160 buckets under every sequence of [addNode] calls. *)
Theorem newHashTable_spec
    (ParseIP : string -> net_IP) (Atoi : string -> Z * option error)
    (rand_Read : list byte -> list byte * option error) (options : Options) :
  is_Some (Options_ID options) \/ (newID rand_Read).2 = None ->
  (Options_IP options = EmptyString \/ Options_Port options = EmptyString \/
     is_Some (Atoi (Options_Port options)).2 ->
   exists e, newHashTable ParseIP Atoi rand_Read options = Returns (None, Some e)) /\
  (Options_IP options <> EmptyString -> Options_Port options <> EmptyString ->
   (Atoi (Options_Port options)).2 = None ->
   exists ht, newHashTable ParseIP Atoi rand_Read options = Returns (Some ht, None)) /\
  (forall ht e,
     newHashTable ParseIP Atoi rand_Read options = Returns (Some ht, e) ->
     e = None /\ RoutingTable ht = replicate (Z.to_nat b) [] /\
     forall ns ht', addNodes ht ns = Some ht' ->
       length (RoutingTable ht') = Z.to_nat b).
Proof.
  intros Hid. split; [| split].
  - intros Hbad. unfold newHashTable.
    assert (exists id,
      match Options_ID options with
      | Some id => Returns id
      | None => match newID rand_Read with
                | (_, Some err) => Panics err
                | (id, None) => Returns id
                end
      end = Returns id) as [id ->].
    { destruct Hid as [[id ->] | Hrand]; [by exists id |].
      destruct (Options_ID options) as [id |]; [by exists id |].
      destruct (newID rand_Read) as [id [err |]]; [discriminate | by exists id]. }
    destruct (String.eqb_spec (Options_IP options) "") as [HIP | HIP];
      [by eexists |].
    destruct (String.eqb_spec (Options_Port options) "") as [HPort | HPort];
      [by eexists |].
    cbn [orb]. destruct Hbad as [? | [? | [err Herr]]]; try done.
    destruct (Atoi (Options_Port options)) as [port o]. simpl in Herr. subst o.
    by exists err.
  - intros HIP HPort HAtoi. unfold newHashTable.
    assert (exists id,
      match Options_ID options with
      | Some id => Returns id
      | None => match newID rand_Read with
                | (_, Some err) => Panics err
                | (id, None) => Returns id
                end
      end = Returns id) as [id ->].
    { destruct Hid as [[id ->] | Hrand]; [by exists id |].
      destruct (Options_ID options) as [id |]; [by exists id |].
      destruct (newID rand_Read) as [id [err |]]; [discriminate | by exists id]. }
    destruct (String.eqb_spec (Options_IP options) "") as [? | _]; [done |].
    destruct (String.eqb_spec (Options_Port options) "") as [? | _]; [done |].
    cbn [orb]. destruct (Atoi (Options_Port options)) as [port o].
    simpl in HAtoi. subst o. by eexists.
  - intros ht e Hnew.
    destruct (newHashTable_Some _ _ _ _ _ _ Hnew) as [-> Hrt].
    split; [reflexivity |]. split; [exact Hrt |].
    intros ns ht' Hadd. rewrite (addNodes_length _ _ _ Hadd), Hrt.
    reflexivity.
Qed.

Lemma newHashTable_spec_witness :
  (exists e, newHashTable ParseIP_ex Atoi_ex rand_fails
               {| Options_ID := Some zeroID; Options_IP := "127.0.0.1";
                  Options_Port := "" |} = Returns (None, Some e)) /\
  (exists ht, newHashTable ParseIP_ex Atoi_ex rand_ok
                {| Options_ID := None; Options_IP := "127.0.0.1";
                   Options_Port := "8080" |} = Returns (Some ht, None)).
Proof.
  split.
  - apply (newHashTable_spec ParseIP_ex Atoi_ex rand_fails
             {| Options_ID := Some zeroID; Options_IP := "127.0.0.1";
                Options_Port := "" |}).
    + left. by eexists.
    + right. left. reflexivity.
  - apply (newHashTable_spec ParseIP_ex Atoi_ex rand_ok
             {| Options_ID := None; Options_IP := "127.0.0.1";
                Options_Port := "8080" |}).
    + right. reflexivity.
    + discriminate.
    + discriminate.
    + reflexivity.
Defined.

(** C9 as stated fails when no identifier is supplied and the random
    source fails: the constructor panics before it looks at IP and Port,
    so a missing IP gives a panic and not an error value. *)
Lemma newHashTable_panics_before_check :
  Options_IP {| Options_ID := None; Options_IP := ""; Options_Port := "8080" |}
    = EmptyString /\
  newHashTable ParseIP_ex Atoi_ex rand_fails
    {| Options_ID := None; Options_IP := ""; Options_Port := "8080" |}
    = Panics (errors_New "entropy source unavailable") /\
  ~ exists e,
      newHashTable ParseIP_ex Atoi_ex rand_fails
        {| Options_ID := None; Options_IP := ""; Options_Port := "8080" |}
        = Returns (None, Some e).
Proof.
  split; [reflexivity |]. split; [reflexivity |].
  intros [e He]. vm_compute in He. discriminate.
Qed.

Example newHashTable_options0 :
  newHashTable ParseIP_ex Atoi_ex rand_ok options0 = Returns (Some table0, None).
Proof. reflexivity. Qed.

(** Scenario D: a missing Port gives the configuration error and no table. *)
Example newHashTable_missing_port :
  newHashTable ParseIP_ex Atoi_ex rand_ok
    {| Options_ID := None; Options_IP := "127.0.0.1"; Options_Port := "" |}
  = Returns (None, Some (errors_New "Port and IP required")).
Proof. reflexivity. Qed.

Example newHashTable_bad_port :
  newHashTable ParseIP_ex Atoi_ex rand_ok
    {| Options_ID := None; Options_IP := "127.0.0.1"; Options_Port := "http" |}
  = Returns (None, Some (errors_New "invalid syntax")).
Proof. reflexivity. Qed.

(** ** Invariants of insertion *)

(** C3. After any sequence of [addNode] calls on a freshly constructed
    table, no bucket holds more than [k] = 20 contacts. *)
Theorem addNode_bucket_capacity
    (ParseIP : string -> net_IP) (Atoi : string -> Z * option error)
    (rand_Read : list byte -> list byte * option error) (options : Options)
    (ht0 ht : hashTable) (ns : list node) :
  newHashTable ParseIP Atoi rand_Read options = Returns (Some ht0, None) ->
  addNodes ht0 ns = Some ht ->
  forall bucket, bucket ∈ RoutingTable ht -> Z.of_nat (length bucket) <= 20.
Proof.
  intros Hnew Hadd bucket Hin.
  assert (Hb : bounded ht).
  { eapply addNodes_bounded; [| exact Hadd]. by eapply fresh_bounded. }
  unfold bounded in Hb. rewrite Forall_forall in Hb. by apply Hb.
Qed.

(** Scenario A: of 25 contacts of one bucket the first 20 are kept. *)
Example addNodes_twentyfive :
  addNodes table0 (map (fun x => contact (lowID x)) (bytesFrom 32 25))
  = Some table0_full.
Proof. vm_compute. reflexivity. Qed.

Lemma addNode_bucket_capacity_witness : Z.of_nat (length twenty) <= 20.
Proof.
  apply (addNode_bucket_capacity ParseIP_ex Atoi_ex rand_ok options0 table0
           table0_full (map (fun x => contact (lowID x)) (bytesFrom 32 25))).
  - reflexivity.
  - vm_compute. reflexivity.
  - apply list_elem_of_lookup. by exists 5%nat.
Defined.

(** C2 as stated fails: [addNode] of a contact that carries the table's
    own identifier puts it into bucket 0. *)
Lemma addNode_self_is_inserted :
  newHashTable ParseIP_ex Atoi_ex rand_ok options0 = Returns (Some table0, None) /\
  addNodes table0 [contact (ID (Self table0))] = Some table0_self /\
  holds table0_self (ID (Self table0_self)).
Proof.
  split; [reflexivity |]. split; [reflexivity |].
  exists [contact zeroID], (contact zeroID). split; [| split].
  - left.
  - left.
  - reflexivity.
Qed.

(** C2, as amended. After any sequence of [addNode] calls on a freshly
    constructed table, none of them with a contact that carries the
    table's own identifier, that identifier names no contact of any
    bucket. *)
Theorem addNode_never_holds_Self
    (ParseIP : string -> net_IP) (Atoi : string -> Z * option error)
    (rand_Read : list byte -> list byte * option error) (options : Options)
    (ht0 ht : hashTable) (ns : list node) :
  newHashTable ParseIP Atoi rand_Read options = Returns (Some ht0, None) ->
  Forall (fun n => ID n <> ID (Self ht0)) ns ->
  addNodes ht0 ns = Some ht ->
  ~ holds ht (ID (Self ht)).
Proof.
  intros Hnew Hns Hadd. rewrite (addNodes_Self _ _ _ Hadd).
  eapply addNodes_holds; [| exact Hns | exact Hadd].
  by eapply fresh_holds.
Qed.

Lemma addNode_never_holds_Self_witness :
  ~ holds table0_full (ID (Self table0_full)).
Proof.
  apply (addNode_never_holds_Self ParseIP_ex Atoi_ex rand_ok options0 table0
           table0_full (map (fun x => contact (lowID x)) (bytesFrom 32 25))).
  - reflexivity.
  - apply (bool_decide_unpack _). vm_compute. exact I.
  - vm_compute. reflexivity.
Defined.

(** C5. If the identifier of the contact already occurs in its target
    bucket, [addNode] returns and leaves the whole table as it is: the
    entry that is there, with its address, stays, and the address of the
    new contact is ignored. *)
Theorem addNode_duplicate_noop (ht : hashTable) (n v : node) (idx : Z)
    (bucket : list node) :
  getBucketIndexFromDifferingBit (ID (Self ht)) (ID n) = Some idx ->
  sliceAt (RoutingTable ht) idx = Some bucket ->
  v ∈ bucket -> ID v = ID n ->
  addNode ht n = Some ht.
Proof.
  intros Hidx Hbucket Hv Hid. unfold addNode.
  rewrite Hidx. cbn [mbind option_bind]. rewrite Hbucket. cbn [mbind option_bind].
  assert (alreadyExists bucket n = true) as ->; [| reflexivity].
  apply alreadyExists_true. by exists v.
Qed.

Lemma addNode_duplicate_noop_witness :
  addNode table0_full {| ID := lowID x20; IP := [x0a; x00; x00; x01]; Port := 4000 |}
  = Some table0_full.
Proof.
  apply (addNode_duplicate_noop table0_full
           {| ID := lowID x20; IP := [x0a; x00; x00; x01]; Port := 4000 |}
           (contact (lowID x20)) 5 twenty).
  - reflexivity.
  - reflexivity.
  - vm_compute. left.
  - reflexivity.
Defined.

(** C4. If the target bucket of a contact holds [k] = 20 contacts, all
    with other identifiers, then [addNode] returns, that bucket holds the
    same 20 contacts in the same order and every other bucket is as
    before: the table is the one the call was given. No identifier is
    added; and in a table built by [addNode] calls from a fresh one, where
    a contact can only sit in its target bucket, the identifier of the new
    contact names no contact of the table. *)
Theorem addNode_full_bucket_drop (ht : hashTable) (n : node) (idx : Z)
    (bucket : list node) :
  getBucketIndexFromDifferingBit (ID (Self ht)) (ID n) = Some idx ->
  sliceAt (RoutingTable ht) idx = Some bucket ->
  Z.of_nat (length bucket) = k ->
  Forall (fun v => ID v <> ID n) bucket ->
  exists ht',
    addNode ht n = Some ht' /\ ht' = ht /\
    sliceAt (RoutingTable ht') idx = Some bucket /\
    (forall j, j <> idx -> sliceAt (RoutingTable ht') j = sliceAt (RoutingTable ht) j) /\
    (forall ParseIP Atoi rand_Read options ht0 ns,
       newHashTable ParseIP Atoi rand_Read options = Returns (Some ht0, None) ->
       addNodes ht0 ns = Some ht ->
       ~ holds ht' (ID n)).
Proof.
  intros Hidx Hbucket Hlen Hdistinct.
  assert (Hexists : alreadyExists bucket n = false).
  { apply alreadyExists_false. by apply Forall_forall. }
  assert (Hsame : addNode ht n = Some ht).
  { unfold addNode. rewrite Hidx. cbn [mbind option_bind].
    rewrite Hbucket. cbn [mbind option_bind]. rewrite Hexists.
    rewrite length_app. cbn [length].
    destruct (Z.gtb_spec (Z.of_nat (length bucket + 1)) k) as [_ | Hroom]; [| lia].
    replace (length bucket + 1 - 1)%nat with (length bucket) by lia.
    apply sliceAt_lookup in Hbucket as [_ Hbucket].
    rewrite take_app_length, list_insert_id by done.
    by rewrite hashTable_eta. }
  exists ht. repeat split; try done.
  intros ParseIP Atoi rand_Read options ht0 ns Hnew Hadd
    (bucket' & v & Hin & Hv & Hid).
  assert (Hp : placed ht).
  { eapply addNodes_placed; [| exact Hadd]. by eapply fresh_placed. }
  apply list_elem_of_lookup in Hin as [i Hi].
  pose proof (Hp i bucket' v Hi Hv) as Hhome. rewrite Hid, Hidx in Hhome.
  injection Hhome as ->.
  apply sliceAt_lookup in Hbucket as [_ Hbucket].
  rewrite Nat2Z.id in Hbucket. rewrite Hi in Hbucket. injection Hbucket as ->.
  rewrite Forall_forall in Hdistinct. by apply (Hdistinct v).
Qed.

Lemma addNode_full_bucket_drop_witness :
  addNodes table0 (map (fun x => contact (lowID x)) (bytesFrom 32 20))
    = Some table0_full /\
  exists ht',
    addNode table0_full (contact (lowID x3f)) = Some ht' /\ ht' = table0_full /\
    sliceAt (RoutingTable ht') 5 = Some twenty /\
    (forall j, j <> 5 ->
       sliceAt (RoutingTable ht') j = sliceAt (RoutingTable table0_full) j) /\
    (forall ParseIP Atoi rand_Read options ht0 ns,
       newHashTable ParseIP Atoi rand_Read options = Returns (Some ht0, None) ->
       addNodes ht0 ns = Some table0_full ->
       ~ holds ht' (ID (contact (lowID x3f)))).
Proof.
  split; [vm_compute; reflexivity |].
  apply (addNode_full_bucket_drop table0_full (contact (lowID x3f)) 5 twenty).
  - reflexivity.
  - reflexivity.
  - reflexivity.
  - apply (bool_decide_unpack _). vm_compute. exact I.
Defined.

(** ** The probe sequence *)

(** The loop that builds the probe sequence ends for every home index:
    as long as the list is shorter than [b], an iteration within the first
    [b - 1] appends an index. *)
Lemma indexListLoop_length (home : Z) (fuel : nat) (t : Z) (l : list Z) :
  0 <= t ->
  Z.of_nat (length l) = 1 + Z.max 0 (Z.min t (b - 1 - home)) + Z.max 0 (Z.min t home) ->
  b - 1 <= t + Z.of_nat fuel ->
  is_Some (indexListLoop fuel l (home - 1 - t) (home + 1 + t)).
Proof.
  revert t l. induction fuel as [| fuel IH]; intros t l Ht Hlen Hfuel;
    cbn [indexListLoop];
    destruct (Z.ltb_spec (Z.of_nat (length l)) b) as [Hshort | Hdone];
    try by eexists.
  - unfold b in *. lia.
  - replace (home - 1 - t - 1) with (home - 1 - (t + 1)) by lia.
    replace (home + 1 + t + 1) with (home + 1 + (t + 1)) by lia.
    apply IH; [lia | | lia].
    destruct (Z.ltb_spec (home + 1 + t) b), (Z.geb_spec (home - 1 - t) 0);
      rewrite ?length_app; cbn [length]; unfold b in *; lia.
Qed.

Lemma buildIndexList_terminates (home : Z) : is_Some (buildIndexList home).
Proof.
  unfold buildIndexList.
  replace (home - 1) with (home - 1 - 0) by lia.
  replace (home + 1) with (home + 1 + 0) by lia.
  apply indexListLoop_length; [lia | | unfold b; lia].
  cbn [length]. unfold b. lia.
Qed.

Lemma filter_none {A : Type} (P : A -> Prop) `{forall x, Decision (P x)} (l : list A) :
  Forall (fun x => ~ P x) l -> filter P l = [].
Proof.
  induction 1 as [| x l Hx _ IH]; [reflexivity |].
  by rewrite filter_cons_False.
Qed.

Lemma alternating_snoc (home t : Z) :
  0 <= t ->
  alternating home (t + 1) = alternating home t ++ [home + (t + 1); home - (t + 1)].
Proof.
  intros Ht. unfold alternating.
  rewrite (seqZ_app 1 t 1) by lia.
  rewrite bind_app. rewrite (seqZ_cons (1 + t) 1) by lia.
  rewrite (seqZ_nil (Z.succ (1 + t)) (Z.pred 1)) by lia.
  cbn. replace (1 + t) with (t + 1) by lia. reflexivity.
Qed.

Lemma alternating_app (home t n : Z) :
  0 <= t -> 0 <= n ->
  alternating home (t + n) =
  alternating home t ++ (d ← seqZ (1 + t) n; [home + d; home - d]).
Proof.
  intros Ht Hn. unfold alternating.
  rewrite (seqZ_app 1 t n) by lia. by rewrite bind_app.
Qed.

(** For a home index in range, the loop builds the alternating sequence
    clipped to [0, b). *)
Lemma indexListLoop_spec (home : Z) (fuel : nat) (t : Z) (l : list Z) :
  0 <= home < b -> 0 <= t <= b - 1 ->
  l = filter (fun i => 0 <= i < b) (alternating home t) ->
  Z.of_nat (length l) = 1 + Z.min t (b - 1 - home) + Z.min t home ->
  b - 1 <= t + Z.of_nat fuel ->
  indexListLoop fuel l (home - 1 - t) (home + 1 + t) = Some (probeSequence home).
Proof.
  intros Hhome. revert t l.
  induction fuel as [| fuel IH]; intros t l Ht Hl Hlen Hfuel;
    cbn [indexListLoop];
    destruct (Z.ltb_spec (Z.of_nat (length l)) b) as [Hshort | Hdone].
  - unfold b in *. lia.
  - f_equal. unfold probeSequence.
    replace (b - 1) with (t + (b - 1 - t)) by lia.
    rewrite alternating_app, filter_app, <- Hl by lia.
    rewrite filter_none; [by rewrite app_nil_r |].
    apply Forall_forall. intros x Hx.
    apply list_elem_of_bind in Hx as (d & Hx & Hd).
    apply elem_of_seqZ in Hd.
    apply elem_of_cons in Hx as [-> | Hx];
      [| apply list_elem_of_singleton in Hx as ->]; unfold b in *; lia.
  - replace (home - 1 - t - 1) with (home - 1 - (t + 1)) by lia.
    replace (home + 1 + t + 1) with (home + 1 + (t + 1)) by lia.
    assert (t < b - 1) by (unfold b in *; lia).
    apply IH; [lia | | | lia].
    + rewrite alternating_snoc, filter_app, <- Hl by lia.
      replace (home + (t + 1)) with (home + 1 + t) by lia.
      replace (home - (t + 1)) with (home - 1 - t) by lia.
      assert (filter (fun i => 0 <= i < b) [home + 1 + t; home - 1 - t]
              = (if home + 1 + t <? b then [home + 1 + t] else [])
                ++ (if home - 1 - t >=? 0 then [home - 1 - t] else [])) as ->.
      { destruct (Z.ltb_spec (home + 1 + t) b), (Z.geb_spec (home - 1 - t) 0);
          try (exfalso; lia);
          repeat (first [rewrite filter_cons_True by lia
                        | rewrite filter_cons_False by lia]);
          by rewrite ?filter_nil. }
      destruct (home + 1 + t <? b), (home - 1 - t >=? 0);
        by rewrite <- ?app_assoc, ?app_nil_r.
    + destruct (Z.ltb_spec (home + 1 + t) b), (Z.geb_spec (home - 1 - t) 0);
        rewrite ?length_app; cbn [length]; unfold b in *; lia.
  - f_equal. unfold probeSequence.
    replace (b - 1) with (t + (b - 1 - t)) by lia.
    rewrite alternating_app, filter_app, <- Hl by lia.
    rewrite filter_none; [by rewrite app_nil_r |].
    apply Forall_forall. intros x Hx.
    apply list_elem_of_bind in Hx as (d & Hx & Hd).
    apply elem_of_seqZ in Hd.
    apply elem_of_cons in Hx as [-> | Hx];
      [| apply list_elem_of_singleton in Hx as ->]; unfold b in *; lia.
Qed.

Lemma buildIndexList_spec (home : Z) :
  0 <= home < b -> buildIndexList home = Some (probeSequence home).
Proof.
  intros Hhome. unfold buildIndexList.
  replace (home - 1) with (home - 1 - 0) by lia.
  replace (home + 1) with (home + 1 + 0) by lia.
  apply indexListLoop_spec; try (unfold b in *; lia).
  - unfold alternating. rewrite (seqZ_nil 1 0) by lia.
    change ([home] = filter (fun i => 0 <= i < b) [home]).
    by rewrite filter_cons_True, filter_nil by lia.
  - cbn [length]. unfold b in *. lia.
Qed.

Lemma elem_of_pair (x y z : Z) : x ∈ [y; z] <-> x = y \/ x = z.
Proof.
  rewrite elem_of_cons, list_elem_of_singleton. reflexivity.
Qed.

Lemma NoDup_alternating (home n : Z) : NoDup (alternating home n).
Proof.
  unfold alternating. apply NoDup_cons. split.
  - intros Hin. apply list_elem_of_bind in Hin as (d & Hx & Hd).
    apply elem_of_seqZ in Hd. apply elem_of_pair in Hx. lia.
  - apply NoDup_bind; [| | apply NoDup_seqZ].
    + intros d1 d2 y Hd1 Hd2 Hy1 Hy2.
      apply elem_of_seqZ in Hd1, Hd2. apply elem_of_pair in Hy1, Hy2. lia.
    + intros d Hd. apply elem_of_seqZ in Hd.
      apply NoDup_cons. split; [| apply NoDup_singleton].
      rewrite list_elem_of_singleton. lia.
Qed.

Lemma elem_of_probeSequence (home x : Z) :
  0 <= home < b -> x ∈ probeSequence home <-> 0 <= x < b.
Proof.
  intros Hhome. unfold probeSequence. rewrite list_elem_of_filter.
  split; [tauto |]. intros Hx. split; [exact Hx |].
  unfold alternating.
  destruct (Z.eq_dec x home) as [-> | Hne]; [left |].
  right. apply list_elem_of_bind. exists (Z.abs (x - home)). split.
  - apply elem_of_pair. lia.
  - apply elem_of_seqZ. lia.
Qed.

(** The clipped alternating sequence names every bucket exactly once. *)
Lemma probeSequence_Permutation (home : Z) :
  0 <= home < b -> probeSequence home ≡ₚ seqZ 0 b.
Proof.
  intros Hhome. apply NoDup_Permutation.
  - apply NoDup_filter, NoDup_alternating.
  - apply NoDup_seqZ.
  - intros x. rewrite elem_of_probeSequence, elem_of_seqZ by done. lia.
Qed.

(** C7. For 20-byte identifiers the probe sequence that
    [getClosestContacts] builds is [probeSequence home]: the home index
    followed by home+1, home-1, home+2, home-2, ..., with the indices
    outside [0, b) = [0, 160) left out; it is what the query walks, and it
    names each of the 160 bucket indices exactly once. *)
Theorem getClosestContacts_probe_sequence (ht : hashTable) (num : Z)
    (target : list byte) (ignoredNodes : list NetworkNode) :
  length (ID (Self ht)) = 20%nat -> length target = 20%nat ->
  exists home,
    getBucketIndexFromDifferingBit (ID (Self ht)) target = Some home /\
    0 <= home < b /\
    buildIndexList home = Some (probeSequence home) /\
    collectContacts ht num target ignoredNodes
      = probeLoop ht ignoredNodes (probeSequence home) shortList_zero num /\
    probeSequence home ≡ₚ seqZ 0 b.
Proof.
  intros Hself Htarget.
  destruct (getBucketIndex_range (ID (Self ht)) target) as (home & Hhome & Hrange);
    [lia | lia |].
  pose proof (buildIndexList_spec home Hrange) as Hbuild.
  pose proof (probeSequence_Permutation home Hrange) as Hperm.
  exists home. split; [exact Hhome |]. split; [exact Hrange |].
  split; [exact Hbuild |]. split; [| exact Hperm].
  unfold collectContacts. rewrite (bind_eq_Some _ _ _ Hhome).
  by rewrite (bind_eq_Some _ _ _ Hbuild).
Qed.

Lemma getClosestContacts_probe_sequence_witness :
  exists home,
    getBucketIndexFromDifferingBit (ID (Self table0_full)) (lowID x21) = Some home /\
    0 <= home < b /\
    buildIndexList home = Some (probeSequence home) /\
    collectContacts table0_full 3 (lowID x21) []
      = probeLoop table0_full [] (probeSequence home) shortList_zero 3 /\
    probeSequence home ≡ₚ seqZ 0 b.
Proof.
  apply (getClosestContacts_probe_sequence table0_full 3 (lowID x21) []);
    reflexivity.
Defined.

(** Scenario B, the order of the walk: from home 5 the probe goes 5, 6, 4,
    7, 3, 8, 2, 9, 1, 10, 0, 11, 12, ... *)
Example buildIndexList_5 :
  take 13 <$> buildIndexList 5 = Some [5; 6; 4; 7; 3; 8; 2; 9; 1; 10; 0; 11; 12].
Proof. vm_compute. reflexivity. Qed.

(** Outside [0, b) the loop still ends, on a sequence that is no probe of
    the table: below 0 only the upper bound is tested. *)
Example buildIndexList_negative :
  take 4 <$> buildIndexList (-2) = Some [-2; -1; 0; 1].
Proof. vm_compute. reflexivity. Qed.

(** ** The closest-contacts query *)

(** *** The ignore list *)

Lemma isIgnored_true (ignoredNodes : list NetworkNode) :
  isIgnored ignoredNodes true = true.
Proof.
  induction ignoredNodes as [| n l IH]; [reflexivity |].
  cbn [isIgnored]. by destruct (bytes_Compare (ID n) (ID n) =? 0).
Qed.

(** An entry of the ignore list always equals itself: with a non-empty
    ignore list every contact counts as ignored. *)
Lemma isIgnored_nonempty (ignoredNodes : list NetworkNode) :
  ignoredNodes <> [] -> isIgnored ignoredNodes false = true.
Proof.
  destruct ignoredNodes as [| n l]; [done |]. intros _.
  cbn [isIgnored]. rewrite bytes_Compare_refl. apply isIgnored_true.
Qed.

Lemma bucketLoop_ignored (ignoredNodes : list NetworkNode) (bucket : list node)
    (sl : shortList) (leftToAdd : Z) :
  ignoredNodes <> [] ->
  bucketLoop ignoredNodes bucket sl leftToAdd = (sl, leftToAdd).
Proof.
  intros Hne. induction bucket as [| c bucket IH]; [reflexivity |].
  cbn [bucketLoop]. by rewrite (isIgnored_nonempty _ Hne).
Qed.

Lemma probeLoop_ignored (ht : hashTable) (ignoredNodes : list NetworkNode)
    (indexList : list Z) (sl sl' : shortList) (leftToAdd : Z) :
  ignoredNodes <> [] ->
  probeLoop ht ignoredNodes indexList sl leftToAdd = Some sl' -> sl' = sl.
Proof.
  intros Hne. induction indexList as [| i l IH]; cbn [probeLoop];
    destruct (leftToAdd >? 0); try congruence.
  destruct (sliceAt (RoutingTable ht) i) as [bucket |]; [| discriminate].
  cbn [mbind option_bind]. by rewrite (bucketLoop_ignored _ _ _ _ Hne).
Qed.

Lemma probeLoop_ignored_total (ht : hashTable) (ignoredNodes : list NetworkNode)
    (indexList : list Z) (sl : shortList) (leftToAdd : Z) :
  ignoredNodes <> [] ->
  Forall (fun i => 0 <= i < Z.of_nat (length (RoutingTable ht))) indexList ->
  probeLoop ht ignoredNodes indexList sl leftToAdd = Some sl.
Proof.
  intros Hne. induction 1 as [| i l Hi _ IH]; cbn [probeLoop];
    destruct (leftToAdd >? 0); try reflexivity.
  destruct (sliceAt_Some (RoutingTable ht) i Hi) as [bucket ->].
  cbn [mbind option_bind]. by rewrite (bucketLoop_ignored _ _ _ _ Hne).
Qed.

Lemma probeSequence_valid (ht : hashTable) (home : Z) :
  length (RoutingTable ht) = Z.to_nat b -> 0 <= home < b ->
  Forall (fun i => 0 <= i < Z.of_nat (length (RoutingTable ht))) (probeSequence home).
Proof.
  intros Hrt Hhome. apply Forall_forall. intros i Hi.
  apply elem_of_probeSequence in Hi; [| exact Hhome].
  rewrite Hrt. unfold b in *. lia.
Qed.

(** What a well-formed query walks. *)
Lemma collectContacts_wellFormed (ht : hashTable) (num : Z) (target : list byte)
    (ignoredNodes : list NetworkNode) :
  wellFormed ht target ->
  exists home, 0 <= home < b /\
    getBucketIndexFromDifferingBit (ID (Self ht)) target = Some home /\
    collectContacts ht num target ignoredNodes
      = probeLoop ht ignoredNodes (probeSequence home) shortList_zero num.
Proof.
  intros (Hrt & Hself & Htarget).
  destruct (getBucketIndex_range (ID (Self ht)) target) as (home & Hhome & Hrange);
    [lia | lia |].
  exists home. split; [exact Hrange |]. split; [exact Hhome |].
  unfold collectContacts. rewrite (bind_eq_Some _ _ _ Hhome).
  by rewrite (bind_eq_Some _ _ _ (buildIndexList_spec home Hrange)).
Qed.

(** C10. With a non-empty ignore list the query returns no contact,
    whatever the table holds and whatever the ignore list names: a query
    that returns returns the empty shortlist, and on a table of 160
    buckets and 20-byte identifiers the query returns. *)
Theorem getClosestContacts_nonempty_ignore (ht : hashTable) (num : Z)
    (target : list byte) (ignoredNodes : list NetworkNode) :
  ignoredNodes <> [] ->
  (forall sl, getClosestContacts ht num target ignoredNodes = Some sl ->
     Nodes sl = []) /\
  (wellFormed ht target ->
     getClosestContacts ht num target ignoredNodes = Some shortList_zero).
Proof.
  intros Hne. split.
  - intros sl Hsl. unfold getClosestContacts in Hsl.
    apply bind_Some in Hsl as (sl' & Hcollect & [= <-]).
    unfold collectContacts in Hcollect.
    apply bind_Some in Hcollect as (home & _ & Hcollect).
    apply bind_Some in Hcollect as (indexList & _ & Hloop).
    by apply probeLoop_ignored in Hloop as ->.
  - intros Hwf.
    destruct (collectContacts_wellFormed ht num target ignoredNodes Hwf)
      as (home & Hrange & _ & Hcollect).
    unfold getClosestContacts. rewrite Hcollect.
    rewrite probeLoop_ignored_total; [reflexivity | exact Hne |].
    apply probeSequence_valid; [apply Hwf | exact Hrange].
Qed.

Lemma getClosestContacts_nonempty_ignore_witness :
  getClosestContacts table0_full 3 (lowID x21) [contact (lowID xff)]
  = Some shortList_zero.
Proof.
  apply (getClosestContacts_nonempty_ignore table0_full 3 (lowID x21)
           [contact (lowID xff)]).
  - discriminate.
  - repeat split.
Defined.

(** *** The shortlist *)

Lemma AppendUnique_app (sl : shortList) (xs ys : list node) :
  AppendUnique sl (xs ++ ys) = AppendUnique (AppendUnique sl xs) ys.
Proof.
  revert sl. induction xs as [| x xs IH]; intros sl; [reflexivity |].
  cbn [app AppendUnique]. apply IH.
Qed.

Lemma AppendUnique_Comparator (sl : shortList) (xs : list node) :
  Comparator (AppendUnique sl xs) = Comparator sl.
Proof.
  revert sl. induction xs as [| x xs IH]; intros sl; [reflexivity |].
  cbn [AppendUnique]. rewrite IH. by destruct (alreadyExists (Nodes sl) x).
Qed.

Lemma AppendUnique_prefix (sl : shortList) (xs : list node) :
  Nodes sl `prefix_of` Nodes (AppendUnique sl xs).
Proof.
  revert sl. induction xs as [| x xs IH]; intros sl; [reflexivity |].
  cbn [AppendUnique]. etrans; [| apply IH].
  destruct (alreadyExists (Nodes sl) x); [reflexivity |].
  by apply prefix_app_r.
Qed.

Lemma AppendUnique_elem_of (sl : shortList) (xs : list node) (v : node) :
  v ∈ Nodes (AppendUnique sl xs) -> v ∈ Nodes sl \/ v ∈ xs.
Proof.
  revert sl. induction xs as [| x xs IH]; intros sl; [by left |].
  cbn [AppendUnique]. intros Hv. apply IH in Hv as [Hv | Hv].
  - destruct (alreadyExists (Nodes sl) x); [by left |].
    cbn [Nodes] in Hv. apply elem_of_app in Hv as [Hv | Hv]; [by left |].
    apply list_elem_of_singleton in Hv as ->. right. left.
  - right. by right.
Qed.

Lemma AppendUnique_length (sl : shortList) (xs : list node) :
  (length (Nodes (AppendUnique sl xs)) <= length (Nodes sl) + length xs)%nat.
Proof.
  revert sl. induction xs as [| x xs IH]; intros sl; cbn [AppendUnique length];
    [lia |].
  etrans; [apply IH |].
  destruct (alreadyExists (Nodes sl) x); cbn [Nodes]; rewrite ?length_app;
    cbn [length]; lia.
Qed.

(** Contacts with pairwise distinct identifiers are all appended. *)
Lemma AppendUnique_NoDup (sl : shortList) (xs : list node) :
  NoDup (ID <$> (Nodes sl ++ xs)) ->
  Nodes (AppendUnique sl xs) = Nodes sl ++ xs.
Proof.
  revert sl. induction xs as [| x xs IH]; intros sl Hnodup; cbn [AppendUnique].
  - by rewrite app_nil_r.
  - assert (alreadyExists (Nodes sl) x = false) as ->.
    { apply alreadyExists_false. intros v Hv Hid.
      rewrite fmap_app, fmap_cons in Hnodup.
      apply NoDup_app in Hnodup as (_ & Hdisj & _).
      apply (Hdisj (ID v)); [by apply list_elem_of_fmap_2 |].
      rewrite Hid. left. }
    rewrite IH; cbn [Nodes]; rewrite <- app_assoc; [reflexivity | exact Hnodup].
Qed.

Lemma insertSorted_Permutation (target : list byte) (x : node) (l : list node) :
  insertSorted target x l ≡ₚ x :: l.
Proof.
  induction l as [| y l IH]; cbn [insertSorted]; [reflexivity |].
  destruct (Less target y x); [| reflexivity].
  rewrite IH. apply Permutation_swap.
Qed.

Lemma sortNodes_Permutation (target : list byte) (l : list node) :
  sortNodes target l ≡ₚ l.
Proof.
  induction l as [| x l IH]; [reflexivity |].
  cbn [sortNodes foldr]. rewrite insertSorted_Permutation.
  by apply Permutation_skip.
Qed.

(** *** The walk over the buckets *)

Lemma bucketLoop_all_ignored (ignoredNodes : list NetworkNode)
    (bucket : list node) (sl : shortList) (leftToAdd : Z) :
  isIgnored ignoredNodes false = true ->
  bucketLoop ignoredNodes bucket sl leftToAdd = (sl, leftToAdd).
Proof.
  intros Hign. induction bucket as [| c bucket IH]; [reflexivity |].
  cbn [bucketLoop]. by rewrite Hign.
Qed.

(** One bucket: the loop appends the first [leftToAdd] eligible contacts
    and counts each of them, appended or already there. *)
Lemma bucketLoop_spec (ignoredNodes : list NetworkNode) (bucket : list node)
    (sl : shortList) (leftToAdd : Z) :
  0 < leftToAdd ->
  bucketLoop ignoredNodes bucket sl leftToAdd
  = (AppendUnique sl (take (Z.to_nat leftToAdd) (eligible ignoredNodes bucket)),
     leftToAdd
     - Z.of_nat (length (take (Z.to_nat leftToAdd) (eligible ignoredNodes bucket)))).
Proof.
  unfold eligible. destruct (isIgnored ignoredNodes false) eqn:Hign.
  - intros _. rewrite bucketLoop_all_ignored by done.
    rewrite take_nil. cbn [AppendUnique length]. f_equal. lia.
  - cbv beta iota. revert sl leftToAdd.
    induction bucket as [| c bucket IH]; intros sl n Hn.
    + rewrite take_nil. cbn [bucketLoop AppendUnique length]. f_equal. lia.
    + cbn [bucketLoop]. rewrite Hign. cbn [negb].
      replace (Z.to_nat n) with (S (Z.to_nat (n - 1))) by lia.
      cbn [take AppendUnique length].
      destruct (Z.eqb_spec (n - 1) 0) as [H0 | H0].
      * rewrite H0. cbn [Z.to_nat]. rewrite take_0.
        cbn [AppendUnique length]. f_equal. lia.
      * rewrite IH by lia. f_equal. lia.
Qed.

Lemma candidates_cons (ht : hashTable) (ignoredNodes : list NetworkNode)
    (i : Z) (l : list Z) :
  candidates ht ignoredNodes (i :: l)
  = eligible ignoredNodes (default [] (sliceAt (RoutingTable ht) i))
    ++ candidates ht ignoredNodes l.
Proof. reflexivity. Qed.

(** The whole walk: the shortlist collects the first [leftToAdd]
    candidates of the probe sequence. *)
Lemma probeLoop_spec (ht : hashTable) (ignoredNodes : list NetworkNode)
    (indexList : list Z) (sl : shortList) (leftToAdd : Z) :
  Forall (fun i => 0 <= i < Z.of_nat (length (RoutingTable ht))) indexList ->
  probeLoop ht ignoredNodes indexList sl leftToAdd
  = Some (AppendUnique sl
            (take (Z.to_nat leftToAdd) (candidates ht ignoredNodes indexList))).
Proof.
  intros Hvalid. revert sl leftToAdd.
  induction Hvalid as [| i l Hi _ IH]; intros sl n; cbn [probeLoop].
  - change (candidates ht ignoredNodes []) with (@nil NetworkNode).
    rewrite take_nil. by destruct (n >? 0).
  - destruct (Z.gtb_spec n 0) as [Hn | Hn].
    + destruct (sliceAt_Some (RoutingTable ht) i Hi) as [bucket Hbucket].
      rewrite Hbucket. cbn [mbind option_bind].
      rewrite bucketLoop_spec, IH by lia. f_equal.
      rewrite candidates_cons, Hbucket.
      change (default [] (Some bucket)) with bucket.
      rewrite take_app, AppendUnique_app. f_equal. f_equal.
      rewrite length_take. lia.
    + replace (Z.to_nat n) with 0%nat by lia. by rewrite take_0.
Qed.

(** The query on a well-formed table, in one equation. *)
Lemma getClosestContacts_spec (ht : hashTable) (num : Z) (target : list byte)
    (ignoredNodes : list NetworkNode) :
  wellFormed ht target ->
  exists home, 0 <= home < b /\
    getBucketIndexFromDifferingBit (ID (Self ht)) target = Some home /\
    collectContacts ht num target ignoredNodes
    = Some (AppendUnique shortList_zero
              (take (Z.to_nat num)
                 (candidates ht ignoredNodes (probeSequence home)))) /\
    getClosestContacts ht num target ignoredNodes
    = Some (sort_Sort
              (AppendUnique shortList_zero
                 (take (Z.to_nat num)
                    (candidates ht ignoredNodes (probeSequence home))))).
Proof.
  intros Hwf.
  destruct (collectContacts_wellFormed ht num target ignoredNodes Hwf)
    as (home & Hrange & Hhome & Hcollect).
  exists home. split; [exact Hrange |]. split; [exact Hhome |].
  assert (Hloop : collectContacts ht num target ignoredNodes
    = Some (AppendUnique shortList_zero
              (take (Z.to_nat num)
                 (candidates ht ignoredNodes (probeSequence home))))).
  { rewrite Hcollect. apply probeLoop_spec, probeSequence_valid;
      [apply Hwf | exact Hrange]. }
  split; [exact Hloop |].
  unfold getClosestContacts. by rewrite (bind_eq_Some _ _ _ Hloop).
Qed.

(** *** What the query returns *)

(** C8, as amended. On a table of 160 buckets and 20-byte identifiers the
    query returns, and its shortlist is a rearrangement of the contacts it
    collected: the first [num] candidates of the probe sequence, a repeated
    identifier kept once. The contacts collected for [num] are a prefix of
    those collected for [num + 1], so the result for [num + 1] contains
    every contact of the result for [num]. *)
Theorem getClosestContacts_count_monotone (ht : hashTable) (num : Z)
    (target : list byte) (ignoredNodes : list NetworkNode) :
  wellFormed ht target ->
  exists home c c' sl sl',
    getBucketIndexFromDifferingBit (ID (Self ht)) target = Some home /\
    c = AppendUnique shortList_zero
          (take (Z.to_nat num) (candidates ht ignoredNodes (probeSequence home))) /\
    c' = AppendUnique shortList_zero
           (take (Z.to_nat (num + 1))
              (candidates ht ignoredNodes (probeSequence home))) /\
    getClosestContacts ht num target ignoredNodes = Some sl /\
    getClosestContacts ht (num + 1) target ignoredNodes = Some sl' /\
    Nodes sl ≡ₚ Nodes c /\ Nodes sl' ≡ₚ Nodes c' /\
    Nodes c `prefix_of` Nodes c' /\
    (forall v, v ∈ Nodes sl -> v ∈ Nodes sl').
Proof.
  intros Hwf.
  destruct (getClosestContacts_spec ht num target ignoredNodes Hwf)
    as (home & _ & Hhome & _ & Hsl).
  destruct (getClosestContacts_spec ht (num + 1) target ignoredNodes Hwf)
    as (home' & _ & Hhome' & _ & Hsl').
  assert (home' = home) as -> by congruence.
  set (cands := candidates ht ignoredNodes (probeSequence home)) in *.
  assert (Hprefix :
    Nodes (AppendUnique shortList_zero (take (Z.to_nat num) cands))
    `prefix_of`
    Nodes (AppendUnique shortList_zero (take (Z.to_nat (num + 1)) cands))).
  { replace (Z.to_nat (num + 1))
      with (Z.to_nat num + (Z.to_nat (num + 1) - Z.to_nat num))%nat by lia.
    rewrite <- take_take_drop, AppendUnique_app. apply AppendUnique_prefix. }
  eexists home, _, _, _, _.
  split; [exact Hhome |]. split; [reflexivity |]. split; [reflexivity |].
  split; [exact Hsl |]. split; [exact Hsl' |].
  split; [apply sortNodes_Permutation |].
  split; [apply sortNodes_Permutation |].
  split; [exact Hprefix |].
  intros v. cbn [sort_Sort Nodes]. rewrite !sortNodes_Permutation.
  destruct Hprefix as [rest ->]. intros Hv. apply elem_of_app. by left.
Qed.

Lemma getClosestContacts_count_monotone_witness :
  exists home c c' sl sl',
    getBucketIndexFromDifferingBit (ID (Self table0_two)) (lowID x02) = Some home /\
    c = AppendUnique shortList_zero
          (take (Z.to_nat 1) (candidates table0_two [] (probeSequence home))) /\
    c' = AppendUnique shortList_zero
           (take (Z.to_nat (1 + 1))
              (candidates table0_two [] (probeSequence home))) /\
    getClosestContacts table0_two 1 (lowID x02) [] = Some sl /\
    getClosestContacts table0_two (1 + 1) (lowID x02) [] = Some sl' /\
    Nodes sl ≡ₚ Nodes c /\ Nodes sl' ≡ₚ Nodes c' /\
    Nodes c `prefix_of` Nodes c' /\
    (forall v, v ∈ Nodes sl -> v ∈ Nodes sl').
Proof.
  apply (getClosestContacts_count_monotone table0_two 1 (lowID x02) []).
  repeat split.
Defined.

(** C8 as stated fails. In bucket 1 the contact 0...03 is stored before
    0...02. A query for one contact returns 0...03; a query for two returns
    0...02 first: the smaller result is no prefix of the larger. And the
    order of the two is the same whatever the target: for the target 0...03
    it is not the order of the distances to the target. *)
Lemma getClosestContacts_not_prefix :
  getClosestContacts table0_two 1 (lowID x02) []
    = Some {| Nodes := [contact (lowID x03)]; Comparator := [] |} /\
  getClosestContacts table0_two 2 (lowID x02) []
    = Some {| Nodes := [contact (lowID x02); contact (lowID x03)];
              Comparator := [] |} /\
  ~ [contact (lowID x03)] `prefix_of` [contact (lowID x02); contact (lowID x03)] /\
  getClosestContacts table0_two 2 (lowID x03) []
    = Some {| Nodes := [contact (lowID x02); contact (lowID x03)];
              Comparator := [] |} /\
  sortedByDistance (lowID x03) [contact (lowID x02); contact (lowID x03)] = false.
Proof.
  split; [vm_compute; reflexivity |]. split; [vm_compute; reflexivity |].
  split; [| split; [vm_compute; reflexivity | vm_compute; reflexivity]].
  intros [rest Hrest]. discriminate.
Qed.

Lemma Permutation_pair {A : Type} (l : list A) (x y : A) :
  l ≡ₚ [x; y] -> l = [x; y] \/ l = [y; x].
Proof.
  intros Hperm.
  pose proof (Permutation_length Hperm) as Hlen.
  destruct l as [| u [| v [| w l]]]; try discriminate.
  assert (Hu : u ∈ [x; y]) by (rewrite <- Hperm; left).
  apply elem_of_cons in Hu as [-> | Hu].
  - apply Permutation_cons_inv, Permutation_singleton_inj in Hperm as ->.
    by left.
  - apply list_elem_of_singleton in Hu as ->.
    rewrite <- (Permutation_swap x y []) in Hperm.
    apply Permutation_cons_inv, Permutation_singleton_inj in Hperm as ->.
    by right.
Qed.

(** The failure does not depend on the ordering that stands for the
    missing [Less]: the shortlist is sorted after the collection has
    stopped, so whatever rearrangement the sort makes, the result for two
    contacts is out of order for the target 0...02 or does not begin with
    the result for one. *)
Lemma shortlist_prefix_fails_for_every_order (rearrange : list node -> list node) :
  (forall l, rearrange l ≡ₚ l) ->
  exists c c',
    collectContacts table0_two 1 (lowID x02) [] = Some c /\
    collectContacts table0_two 2 (lowID x02) [] = Some c' /\
    ~ (sortedByDistance (lowID x02) (rearrange (Nodes c')) = true /\
       rearrange (Nodes c) `prefix_of` rearrange (Nodes c')).
Proof.
  intros Hperm.
  exists {| Nodes := [contact (lowID x03)]; Comparator := [] |},
         {| Nodes := [contact (lowID x03); contact (lowID x02)]; Comparator := [] |}.
  split; [vm_compute; reflexivity |]. split; [vm_compute; reflexivity |].
  cbn [Nodes].
  assert (rearrange [contact (lowID x03)] = [contact (lowID x03)]) as ->
    by apply Permutation_singleton_r, Hperm.
  destruct (Permutation_pair _ _ _ (Hperm [contact (lowID x03); contact (lowID x02)]))
    as [-> | ->].
  - intros [Hsorted _]. vm_compute in Hsorted. discriminate.
  - intros [_ [rest Hrest]]. discriminate.
Qed.

(** C1, at the failing input. The table holds one contact, 0...01; the
    ignore list names another identifier, 0...02. The contact matches no
    entry of the ignore list and is the one a query for one contact returns
    with no ignore list, yet the query with the ignore list returns an empty
    shortlist. *)
Theorem getClosestContacts_drops_unlisted_contact :
  alreadyExists [contact (lowID x02)] (contact (lowID x01)) = false /\
  getClosestContacts table0_one 1 (lowID x01) []
    = Some {| Nodes := [contact (lowID x01)]; Comparator := [] |} /\
  getClosestContacts table0_one 1 (lowID x01) [contact (lowID x02)]
    = Some {| Nodes := []; Comparator := [] |}.
Proof.
  split; [reflexivity |]. split; vm_compute; reflexivity.
Qed.

(** *** With an empty ignore list *)

Lemma bind_lookup_seq {A : Type} (l : list (list A)) :
  seq 0 (length l) ≫= (fun i => default [] (l !! i)) = concat l.
Proof.
  induction l as [| x l IH]; [reflexivity |].
  cbn [length seq]. rewrite <- fmap_S_seq.
  cbn [mbind list_bind lookup list_lookup concat].
  change (default [] (Some x)) with x. f_equal.
  rewrite <- IH, list_fmap_bind. reflexivity.
Qed.

Lemma candidates_seqZ (ht : hashTable) :
  candidates ht [] (seqZ 0 (Z.of_nat (length (RoutingTable ht))))
  = concat (RoutingTable ht).
Proof.
  unfold candidates, seqZ. rewrite list_fmap_bind, Nat2Z.id.
  rewrite <- bind_lookup_seq. induction (seq 0 (length (RoutingTable ht))) as [| i l IH];
    [reflexivity |].
  cbn [mbind list_bind]. cbn [mbind list_bind] in IH. rewrite IH. f_equal.
  cbn [compose]. unfold eligible, sliceAt. cbn [isIgnored].
  destruct (Z.ltb_spec (Z.of_nat i + 0) 0) as [Hneg | _]; [lia |].
  by replace (Z.to_nat (Z.of_nat i + 0)) with i by lia.
Qed.

(** With no ignore list the walk meets every contact of the table. *)
Lemma candidates_all (ht : hashTable) (home : Z) :
  length (RoutingTable ht) = Z.to_nat b -> 0 <= home < b ->
  candidates ht [] (probeSequence home) ≡ₚ concat (RoutingTable ht).
Proof.
  intros Hrt Hhome. rewrite <- candidates_seqZ. unfold candidates.
  apply bind_Permutation. rewrite Hrt, Z2Nat.id by (unfold b; lia).
  by apply probeSequence_Permutation.
Qed.

(** The part of the query's contract that does not involve the ignore
    list: at most [num] contacts, all of them contacts of the table; none
    for [num <= 0]; and all contacts of the table when they carry distinct
    identifiers and are at most [num]. *)
Lemma getClosestContacts_empty_ignore (ht : hashTable) (num : Z)
    (target : list byte) :
  wellFormed ht target ->
  exists sl,
    getClosestContacts ht num target [] = Some sl /\
    Z.of_nat (length (Nodes sl)) <= Z.max 0 num /\
    (forall v, v ∈ Nodes sl -> v ∈ concat (RoutingTable ht)) /\
    (num <= 0 -> Nodes sl = []) /\
    (NoDup (ID <$> concat (RoutingTable ht)) ->
     Z.of_nat (length (concat (RoutingTable ht))) <= num ->
     Nodes sl ≡ₚ concat (RoutingTable ht)).
Proof.
  intros Hwf.
  destruct (getClosestContacts_spec ht num target [] Hwf)
    as (home & Hrange & _ & _ & Hsl).
  pose proof (candidates_all ht home (proj1 Hwf) Hrange) as Hall.
  set (cands := candidates ht [] (probeSequence home)) in *.
  eexists. split; [exact Hsl |]. cbn [sort_Sort Nodes].
  split; [| split; [| split]].
  - rewrite sortNodes_Permutation.
    pose proof (AppendUnique_length shortList_zero (take (Z.to_nat num) cands)) as Hlen.
    rewrite length_take in Hlen. cbn [shortList_zero Nodes length] in Hlen. lia.
  - intros v. rewrite sortNodes_Permutation. intros Hv.
    apply AppendUnique_elem_of in Hv as [Hv | Hv]; [by apply elem_of_nil in Hv |].
    rewrite <- Hall. apply elem_of_take in Hv as (i & Hi & _).
    apply list_elem_of_lookup. by exists i.
  - intros Hnum. replace (Z.to_nat num) with 0%nat by lia.
    by rewrite take_0.
  - intros Hnodup Hlen. rewrite sortNodes_Permutation.
    rewrite take_ge by (rewrite (Permutation_length Hall); lia).
    rewrite AppendUnique_NoDup; [exact Hall |].
    cbn [shortList_zero Nodes app]. by rewrite Hall.
Qed.

(** Scenario C: a query for no contact returns the empty shortlist. *)
Example getClosestContacts_zero :
  getClosestContacts table0_full 0 (lowID x21) [] = Some shortList_zero.
Proof. vm_compute. reflexivity. Qed.

(** The order within the result is that of the identifiers read as
    numbers, the shortlist of the query having no target to compare with. *)
Example getClosestContacts_three :
  Nodes <$> getClosestContacts table0_full 3 (lowID x21) []
  = Some [contact (lowID x20); contact (lowID x21); contact (lowID x22)].
Proof. vm_compute. reflexivity. Qed.

(** *** The order of the result *)

Lemma sortedByDistance_cons (target : list byte) (x : node) (l : list node) :
  sortedByDistance target (x :: l) = true <->
  (forall y, head l = Some y -> distance (ID x) target <= distance (ID y) target) /\
  sortedByDistance target l = true.
Proof.
  destruct l as [| y l]; cbn [sortedByDistance head].
  - split; [| done]. intros _. split; [discriminate | reflexivity].
  - rewrite andb_true_iff, Z.leb_le. split.
    + intros [Hle Hs]. split; [by intros ? [= <-] | exact Hs].
    + intros [Hle Hs]. split; [by apply Hle | exact Hs].
Qed.

Lemma insertSorted_sorted (target : list byte) (x : node) (l : list node) :
  sortedByDistance target l = true ->
  sortedByDistance target (insertSorted target x l) = true.
Proof.
  induction l as [| y l IH]; [reflexivity |].
  intros Hs. apply sortedByDistance_cons in Hs as [Hhead Hs].
  cbn [insertSorted]. unfold Less.
  destruct (Z.ltb_spec (distance (ID y) target) (distance (ID x) target)) as [Hlt | Hge].
  - apply sortedByDistance_cons. split; [| by apply IH].
    destruct l as [| z l]; cbn [insertSorted head].
    + intros ? [= <-]. lia.
    + unfold Less.
      destruct (distance (ID z) target <? distance (ID x) target);
        intros ? [= <-]; [by apply Hhead | lia].
  - apply sortedByDistance_cons. split; [by intros ? [= <-] |].
    apply sortedByDistance_cons. by split.
Qed.

(** The shortlist comes back in non-decreasing distance to its own
    [Comparator]. The query never sets it: it is the zero value of
    [&shortList{}], and the distance to it is the identifier read as a
    number. *)
Lemma sort_Sort_sorted (sl : shortList) :
  sortedByDistance (Comparator sl) (Nodes (sort_Sort sl)) = true.
Proof.
  cbn [sort_Sort Nodes]. induction (Nodes sl) as [| x l IH]; [reflexivity |].
  cbn [sortNodes foldr]. by apply insertSorted_sorted.
Qed.

Lemma getClosestContacts_Comparator (ht : hashTable) (num : Z)
    (target : list byte) (ignoredNodes : list NetworkNode) (sl : shortList) :
  getClosestContacts ht num target ignoredNodes = Some sl -> Comparator sl = [].
Proof.
  intros Hsl. unfold getClosestContacts in Hsl.
  apply bind_Some in Hsl as (c & Hcollect & [= <-]).
  unfold collectContacts in Hcollect.
  apply bind_Some in Hcollect as (home & _ & Hcollect).
  apply bind_Some in Hcollect as (indexList & _ & Hloop).
  cbn [sort_Sort Comparator].
  assert (Hgen : forall l c0 n c1,
    probeLoop ht ignoredNodes l c0 n = Some c1 -> Comparator c1 = Comparator c0).
  { clear. induction l as [| i l IH]; intros c0 n c1; cbn [probeLoop];
      destruct (n >? 0); try by intros [= <-].
    intros H. apply bind_Some in H as (bucket & _ & H).
    destruct (bucketLoop ignoredNodes bucket c0 n) as [c2 n2] eqn:Hbucket.
    apply IH in H. rewrite H. clear H IH.
    revert c0 n Hbucket. induction bucket as [| v bucket IHb]; intros c0 n;
      cbn [bucketLoop]; [by intros [= <- _] |].
    destruct (negb (isIgnored ignoredNodes false)); [| apply IHb].
    destruct (n - 1 =? 0).
    - intros [= <- _]. apply (AppendUnique_Comparator c0 [v]).
    - intros H. apply IHb in H. rewrite H. apply (AppendUnique_Comparator c0 [v]). }
  by apply Hgen in Hloop.
Qed.

(** *** Tables built by insertion *)

(** In a table built by [addNode] calls from a fresh one no identifier
    names two contacts, so with no ignore list a query for at least as many
    contacts as the table holds returns them all. *)
Lemma getClosestContacts_returns_all
    (ParseIP : string -> net_IP) (Atoi : string -> Z * option error)
    (rand_Read : list byte -> list byte * option error) (options : Options)
    (ht0 ht : hashTable) (ns : list node) (num : Z) (target : list byte) :
  newHashTable ParseIP Atoi rand_Read options = Returns (Some ht0, None) ->
  addNodes ht0 ns = Some ht ->
  length (ID (Self ht)) = 20%nat -> length target = 20%nat ->
  Z.of_nat (length (concat (RoutingTable ht))) <= num ->
  exists sl,
    getClosestContacts ht num target [] = Some sl /\
    Nodes sl ≡ₚ concat (RoutingTable ht).
Proof.
  intros Hnew Hadd Hself Htarget Hnum.
  assert (Hwf : wellFormed ht target).
  { split; [| by split].
    rewrite (addNodes_length _ _ _ Hadd).
    apply newHashTable_Some in Hnew as [_ ->]. reflexivity. }
  destruct (getClosestContacts_empty_ignore ht num target Hwf)
    as (sl & Hsl & _ & _ & _ & Hall).
  exists sl. split; [exact Hsl |]. apply Hall; [| exact Hnum].
  eapply addNodes_unique; [| | exact Hadd].
  - by eapply fresh_placed.
  - by eapply fresh_unique.
Qed.

(** Scenario B: contacts in the buckets 0, 5 and 10 only, and a target of
    bucket 5. Two contacts come from bucket 5; the third comes from bucket
    10, which the probe 5, 6, 4, 7, 3, 8, 2, 9, 1, 10, 0 reaches before
    bucket 0. *)
Example getClosestContacts_spill :
  Nodes <$> getClosestContacts table0_three 2 (lowID x20) []
    = Some [contact (lowID x20); contact (lowID x21)] /\
  Nodes <$> getClosestContacts table0_three 3 (lowID x20) []
    = Some [contact (lowID x20); contact (lowID x21); contact id1024] /\
  Nodes <$> getClosestContacts table0_three 4 (lowID x20) []
    = Some [contact (lowID x01); contact (lowID x20); contact (lowID x21);
            contact id1024].
Proof. repeat split; vm_compute; reflexivity. Qed.

(** * Further properties of the code *)

(** ** The distance metric *)

Lemma byte_xor_comm (x y : byte) : byte_xor x y = byte_xor y x.
Proof. unfold byte_xor. by rewrite N.lxor_comm. Qed.

Lemma byteLoop_comm (id1 id2 : list byte) (n : nat) (j : Z) :
  byteLoop id1 id2 n j = byteLoop id2 id1 n j.
Proof.
  revert j. induction n as [| n IH]; intros j; cbn [byteLoop]; [reflexivity |].
  destruct (sliceAt id1 j) as [x |], (sliceAt id2 j) as [y |];
    cbn [mbind option_bind]; try reflexivity.
  by rewrite (byte_xor_comm y x), IH.
Qed.

(** X1. The bucket index is symmetric: for identifiers of one length the
    index of [id1] against [id2] is that of [id2] against [id1], panics
    included. *)
Theorem getBucketIndexFromDifferingBit_symmetric (id1 id2 : list byte) :
  length id1 = length id2 ->
  getBucketIndexFromDifferingBit id1 id2 = getBucketIndexFromDifferingBit id2 id1.
Proof.
  intros Hlen. unfold getBucketIndexFromDifferingBit.
  rewrite Hlen. apply byteLoop_comm.
Qed.

Lemma getBucketIndexFromDifferingBit_symmetric_witness :
  getBucketIndexFromDifferingBit (lowID x05) (x80 :: replicate 19 x00)
  = getBucketIndexFromDifferingBit (x80 :: replicate 19 x00) (lowID x05).
Proof.
  apply (getBucketIndexFromDifferingBit_symmetric (lowID x05) (x80 :: replicate 19 x00)).
  reflexivity.
Defined.

Lemma bitLoop_None_x00 (z : byte) (j : Z) :
  bitLoop z j 8 0 = None <-> z = x00.
Proof.
  pose proof (bitLoop_spec z j 8 0 ltac:(lia) ltac:(lia)) as Hspec.
  split.
  - intros Hnone. rewrite Hnone in Hspec. by apply byte_no_bit_x00.
  - intros ->. reflexivity.
Qed.

Lemma byteLoop_None (id1 id2 : list byte) (n : nat) (j : Z) :
  0 <= j -> j + Z.of_nat n = Z.of_nat (length id1) ->
  j <= Z.of_nat (length id2) ->
  byteLoop id1 id2 n j = None <->
  (length id2 < length id1)%nat /\
  forall i, j <= i < Z.of_nat (length id2) -> sliceAt id1 i = sliceAt id2 i.
Proof.
  revert j. induction n as [| n IH]; intros j Hj Hn Hj2; cbn [byteLoop].
  - split; [discriminate | lia].
  - destruct (sliceAt_Some id1 j) as [x Hx]; [lia |]. rewrite Hx.
    cbn [mbind option_bind].
    destruct (Z.eq_dec j (Z.of_nat (length id2))) as [Hend | Hin].
    + assert (sliceAt id2 j = None) as ->.
      { destruct (sliceAt id2 j) as [y |] eqn:Hy; [| reflexivity].
        apply sliceAt_lt in Hy. lia. }
      cbn [mbind option_bind]. split; [| done]. intros _. split; [lia |].
      intros i Hi. lia.
    + destruct (sliceAt_Some id2 j) as [y Hy]; [lia |]. rewrite Hy.
      cbn [mbind option_bind].
      destruct (bitLoop (byte_xor x y) j 8 0) as [r |] eqn:Hbits.
      * split; [discriminate |]. intros [_ Heq].
        specialize (Heq j ltac:(lia)). rewrite Hx, Hy in Heq.
        injection Heq as ->.
        assert (bitLoop (byte_xor y y) j 8 0 = None) as Hnone
          by by apply bitLoop_None_x00, byte_xor_x00.
        congruence.
      * apply bitLoop_None_x00, byte_xor_x00 in Hbits as ->.
        rewrite IH by lia. split; intros [Hlt Heq]; (split; [exact Hlt |]);
          intros i Hi.
        -- destruct (Z.eq_dec i j) as [-> | Hne]; [congruence | apply Heq; lia].
        -- apply Heq. lia.
Qed.

(** X2. The one way the bucket index panics: reading [id2[j]] is out of
    range exactly when [id2] is shorter than [id1] and [id1] begins with
    [id2]. A difference found within [id2] returns before the end of
    [id2] is reached. *)
Theorem getBucketIndexFromDifferingBit_panics (id1 id2 : list byte) :
  getBucketIndexFromDifferingBit id1 id2 = None <->
  (length id2 < length id1)%nat /\ id2 `prefix_of` id1.
Proof.
  unfold getBucketIndexFromDifferingBit.
  rewrite byteLoop_None by lia. split; intros [Hlt H]; (split; [exact Hlt |]).
  - exists (drop (length id2) id1). rewrite <- (take_drop (length id2) id1) at 1.
    f_equal. apply list_eq. intros i.
    destruct (decide (i < length id2)%nat) as [Hi | Hi].
    + rewrite lookup_take_lt by done.
      specialize (H (Z.of_nat i) ltac:(lia)). unfold sliceAt in H.
      destruct (Z.ltb_spec (Z.of_nat i) 0) as [? | _]; [lia |].
      by rewrite Nat2Z.id in H.
    + rewrite lookup_take_ge, lookup_ge_None_2 by lia. reflexivity.
  - destruct H as [rest ->]. intros i Hi. unfold sliceAt.
    destruct (Z.ltb_spec i 0) as [? | _]; [lia |].
    apply lookup_app_l. lia.
Qed.

(** X3. With [id2] at least as long as [id1] the bucket index returns,
    and it lies between [min 0 (b - 8 * len(id1))] and [b - 1]: a valid
    bucket index when [id1] has at most 20 bytes. *)
Theorem getBucketIndexFromDifferingBit_bounds (id1 id2 : list byte) :
  (length id1 <= length id2)%nat ->
  exists idx,
    getBucketIndexFromDifferingBit id1 id2 = Some idx /\
    Z.min 0 (b - 8 * Z.of_nat (length id1)) <= idx < b /\
    ((length id1 <= 20)%nat -> 0 <= idx < b).
Proof.
  intros Hlen.
  destruct (getBucketIndex_cases id1 id2 Hlen) as [(p & Hp & _ & Hres) | [_ Hres]].
  - exists (b - 1 - p). split; [exact Hres |]. unfold b. lia.
  - exists 0. split; [exact Hres |]. unfold b. lia.
Qed.

Lemma getBucketIndexFromDifferingBit_bounds_witness :
  exists idx,
    getBucketIndexFromDifferingBit zeroID (lowID x05) = Some idx /\
    Z.min 0 (b - 8 * Z.of_nat (length zeroID)) <= idx < b /\
    ((length zeroID <= 20)%nat -> 0 <= idx < b).
Proof.
  apply (getBucketIndexFromDifferingBit_bounds zeroID (lowID x05)).
  vm_compute. lia.
Defined.

(** An identifier of more than 20 bytes can give an index below 0. *)
Example getBucketIndex_negative :
  getBucketIndexFromDifferingBit (replicate 21 x00) (replicate 20 x00 ++ [x01])
  = Some (-8).
Proof. reflexivity. Qed.

(** *** The index and the XOR distance *)

Lemma bytesToZ_snoc (s : list byte) (x : byte) :
  bytesToZ (s ++ [x]) = bytesToZ s * 256 + byteZ x.
Proof. unfold bytesToZ. by rewrite fold_left_app. Qed.

Lemma bytesToZ_nonneg (s : list byte) : 0 <= bytesToZ s.
Proof.
  induction s as [| x s IH] using rev_ind; [done |].
  rewrite bytesToZ_snoc. pose proof (byteZ_range x). lia.
Qed.

Lemma testbit_snoc_byte (a c k : Z) :
  0 <= c < 256 -> 0 <= k ->
  Z.testbit (a * 256 + c) k
  = if k <? 8 then Z.testbit c k else Z.testbit a (k - 8).
Proof.
  intros Hc Hk. destruct (Z.ltb_spec k 8) as [Hlow | Hhigh].
  - rewrite <- (Z.mod_pow2_bits_low (a * 256 + c) 8 k) by lia.
    f_equal. change (2 ^ 8) with 256. Z.div_mod_to_equations. lia.
  - replace k with ((k - 8) + 8) at 1 by lia.
    rewrite <- Z.div_pow2_bits by lia.
    f_equal. change (2 ^ 8) with 256. Z.div_mod_to_equations. lia.
Qed.

(** Bit [k] of the big-endian value of [s] is bit [8 * len(s) - 1 - k] of
    [s] counted from the front. *)
Lemma testbit_bytesToZ (s : list byte) (k : Z) :
  0 <= k ->
  Z.testbit (bytesToZ s) k = bitAt s (8 * Z.of_nat (length s) - 1 - k).
Proof.
  revert k. induction s as [| x s IH] using rev_ind; intros k Hk.
  - cbn. rewrite Z.bits_0. unfold bitAt, sliceAt.
    destruct (_ <? 0); [reflexivity | by rewrite lookup_nil].
  - rewrite bytesToZ_snoc, testbit_snoc_byte by (apply byteZ_range || lia).
    rewrite length_app. cbn [length].
    destruct (Z.ltb_spec k 8) as [Hlow | Hhigh].
    + replace (8 * Z.of_nat (length s + 1) - 1 - k)
        with (Z.of_nat (length s) * 8 + (7 - k)) by lia.
      assert (Hx : sliceAt (s ++ [x]) (Z.of_nat (length s)) = Some x).
      { unfold sliceAt. destruct (Z.ltb_spec (Z.of_nat (length s)) 0); [lia |].
        rewrite Nat2Z.id. by apply list_lookup_middle. }
      rewrite (bitAt_byte _ _ _ x Hx) by lia.
      f_equal. lia.
    + rewrite IH by lia.
      replace (8 * Z.of_nat (length s + 1) - 1 - k)
        with (8 * Z.of_nat (length s) - 1 - (k - 8)) by lia.
      set (p := 8 * Z.of_nat (length s) - 1 - (k - 8)).
      assert (Hp : p < 8 * Z.of_nat (length s)) by (unfold p; lia).
      unfold bitAt, sliceAt.
      destruct (Z.ltb_spec (p / 8) 0) as [Hneg | Hpos]; [reflexivity |].
      rewrite lookup_app_l; [reflexivity |].
      Z.div_mod_to_equations. lia.
Qed.

Lemma bitAt_xorBytes (id1 id2 : list byte) (p : Z) :
  length id1 = length id2 ->
  bitAt (xorBytes id1 id2) p = xorb (bitAt id1 p) (bitAt id2 p).
Proof.
  intros Hlen. unfold bitAt.
  destruct (sliceAt id1 (p / 8)) as [x |] eqn:Hx.
  - destruct (sliceAt_Some id2 (p / 8)) as [y Hy];
      [apply sliceAt_lt in Hx; lia |].
    rewrite Hy, (sliceAt_xorBytes _ _ _ _ _ Hx Hy), byteZ_xor.
    apply Z.lxor_spec.
  - assert (sliceAt id2 (p / 8) = None) as Hy.
    { destruct (sliceAt id2 (p / 8)) as [y |] eqn:Hy; [| reflexivity].
      apply sliceAt_lt in Hy.
      destruct (sliceAt_Some id1 (p / 8)) as [x Hx']; [lia | congruence]. }
    rewrite Hy.
    destruct (sliceAt (xorBytes id1 id2) (p / 8)) as [z |] eqn:Hz; [| reflexivity].
    apply sliceAt_lt in Hz. rewrite length_xorBytes in Hz.
    destruct (sliceAt_Some id1 (p / 8)) as [x Hx']; [lia | congruence].
Qed.

Lemma bytesToZ_xorBytes (id1 id2 : list byte) :
  length id1 = length id2 ->
  bytesToZ (xorBytes id1 id2) = Z.lxor (bytesToZ id1) (bytesToZ id2).
Proof.
  intros Hlen. apply Z.bits_inj'. intros k Hk.
  rewrite Z.lxor_spec, !testbit_bytesToZ by done.
  rewrite length_xorBytes, <- Hlen, Nat.min_id.
  by apply bitAt_xorBytes.
Qed.

(** The first set bit fixes the size of the big-endian value. *)
Lemma firstSetBit_bounds (s : list byte) (p : Z) :
  firstSetBit s p ->
  2 ^ (8 * Z.of_nat (length s) - 1 - p) <= bytesToZ s
    < 2 ^ (8 * Z.of_nat (length s) - p).
Proof.
  intros (Hp & Hset & Hclear).
  set (m := 8 * Z.of_nat (length s) - 1 - p).
  assert (Hm : 0 <= m).
  { destruct (Z_lt_le_dec p (8 * Z.of_nat (length s))) as [? | Hge]; [unfold m; lia |].
    rewrite bitAt_beyond in Hset by lia. discriminate. }
  assert (Hbit : Z.testbit (bytesToZ s) m = true).
  { rewrite testbit_bytesToZ by done. unfold m.
    by replace (8 * Z.of_nat (length s) - 1 - (8 * Z.of_nat (length s) - 1 - p))
      with p by lia. }
  assert (Hlog : Z.log2 (bytesToZ s) = m).
  { apply Z.log2_bits_unique; [exact Hbit |]. intros k Hk.
    rewrite testbit_bytesToZ by lia.
    destruct (Z_lt_le_dec (8 * Z.of_nat (length s) - 1 - k) 0) as [Hneg | Hpos].
    - unfold bitAt, sliceAt.
      destruct (Z.ltb_spec ((8 * Z.of_nat (length s) - 1 - k) / 8) 0) as [? | Hq];
        [reflexivity |].
      exfalso. Z.div_mod_to_equations. lia.
    - apply Hclear. unfold m in Hk. lia. }
  assert (Hpos : 0 < bytesToZ s).
  { pose proof (bytesToZ_nonneg s).
    destruct (Z.eq_dec (bytesToZ s) 0) as [H0 | ?]; [| lia].
    rewrite H0, Z.bits_0 in Hbit. discriminate. }
  pose proof (Z.log2_spec _ Hpos) as Hspec. rewrite Hlog in Hspec.
  replace (8 * Z.of_nat (length s) - p) with (Z.succ m) by (unfold m; lia).
  exact Hspec.
Qed.

(** X4. Bucket [i] is the distance range [2^i, 2^(i+1)): for two
    different 20-byte identifiers the bucket index is the position of the
    highest set bit of the exclusive or of the two identifiers read as
    big-endian numbers. *)
Theorem getBucketIndexFromDifferingBit_log2 (id1 id2 : list byte) :
  length id1 = 20%nat -> length id2 = 20%nat -> id1 <> id2 ->
  exists idx,
    getBucketIndexFromDifferingBit id1 id2 = Some idx /\
    2 ^ idx <= Z.lxor (bytesToZ id1) (bytesToZ id2) < 2 ^ (idx + 1) /\
    idx = Z.log2 (Z.lxor (bytesToZ id1) (bytesToZ id2)).
Proof.
  intros H1 H2 Hne.
  destruct (getBucketIndex_cases id1 id2) as [(p & Hp & Hfirst & Hres) | [Hclear _]];
    [lia | |].
  - exists (b - 1 - p). split; [exact Hres |].
    pose proof (firstSetBit_bounds _ _ Hfirst) as Hbounds.
    rewrite length_xorBytes, H1, H2, bytesToZ_xorBytes in Hbounds by congruence.
    assert (Hrange : 2 ^ (b - 1 - p)
                     <= Z.lxor (bytesToZ id1) (bytesToZ id2) < 2 ^ (b - 1 - p + 1)).
    { unfold b. cbn [Nat.min Z.of_nat] in Hbounds.
      replace (160 - 1 - p) with (8 * Z.of_nat 20 - 1 - p) by lia.
      replace (8 * Z.of_nat 20 - 1 - p + 1) with (8 * Z.of_nat 20 - p) by lia.
      exact Hbounds. }
    split; [exact Hrange |].
    symmetry. apply Z.log2_unique; [unfold b; lia |].
    replace (Z.succ (b - 1 - p)) with (b - 1 - p + 1) by lia. exact Hrange.
  - exfalso. apply Hne, xorBytes_clear_eq; [congruence | exact Hclear].
Qed.

Lemma getBucketIndexFromDifferingBit_log2_witness :
  exists idx,
    getBucketIndexFromDifferingBit zeroID (lowID x05) = Some idx /\
    2 ^ idx <= Z.lxor (bytesToZ zeroID) (bytesToZ (lowID x05)) < 2 ^ (idx + 1) /\
    idx = Z.log2 (Z.lxor (bytesToZ zeroID) (bytesToZ (lowID x05))).
Proof.
  apply (getBucketIndexFromDifferingBit_log2 zeroID (lowID x05));
    [reflexivity | reflexivity | discriminate].
Defined.

(** X5. Two contacts of one bucket are closer to each other than to the
    local node: if two different 20-byte identifiers, both different from
    [self], have the same bucket index against [self], their bucket index
    against each other is smaller. *)
Theorem same_bucket_closer (self id1 id2 : list byte) (i : Z) :
  length self = 20%nat -> length id1 = 20%nat -> length id2 = 20%nat ->
  id1 <> self -> id2 <> self -> id1 <> id2 ->
  getBucketIndexFromDifferingBit self id1 = Some i ->
  getBucketIndexFromDifferingBit self id2 = Some i ->
  exists i', getBucketIndexFromDifferingBit id1 id2 = Some i' /\ 0 <= i' < i.
Proof.
  intros Hs H1 H2 Hne1 Hne2 Hne Hi1 Hi2.
  destruct (getBucketIndex_cases self id1) as [(p & Hp & Hfirst1 & Hres1) | [Hclear _]];
    [lia | | exfalso; apply Hne1; symmetry;
             apply xorBytes_clear_eq; [congruence | exact Hclear]].
  destruct (getBucketIndex_cases self id2) as [(q & Hq & Hfirst2 & Hres2) | [Hclear _]];
    [lia | | exfalso; apply Hne2; symmetry;
             apply xorBytes_clear_eq; [congruence | exact Hclear]].
  assert (q = p) as -> by (rewrite Hi1 in Hres1; rewrite Hi2 in Hres2;
                           injection Hres1; injection Hres2; lia).
  destruct (getBucketIndex_cases id1 id2) as [(r & Hr & Hfirst & Hres) | [Hclear _]];
    [lia | | exfalso; apply Hne, xorBytes_clear_eq; [congruence | exact Hclear]].
  exists (b - 1 - r). split; [exact Hres |].
  assert (Hagree : forall t, 0 <= t <= p -> bitAt (xorBytes id1 id2) t = false).
  { intros t Ht. rewrite bitAt_xorBytes by congruence.
    destruct Hfirst1 as (_ & Hset1 & Hclear1), Hfirst2 as (_ & Hset2 & Hclear2).
    destruct (Z.eq_dec t p) as [-> | Hlt].
    - rewrite bitAt_xorBytes in Hset1, Hset2 by congruence.
      by destruct (bitAt self p), (bitAt id1 p), (bitAt id2 p).
    - specialize (Hclear1 t ltac:(lia)). specialize (Hclear2 t ltac:(lia)).
      rewrite bitAt_xorBytes in Hclear1, Hclear2 by congruence.
      by destruct (bitAt self t), (bitAt id1 t), (bitAt id2 t). }
  destruct Hfirst as (Hr0 & Hset & _).
  assert (p < r).
  { destruct (Z_lt_le_dec p r) as [? | Hle]; [done |].
    rewrite Hagree in Hset by lia. discriminate. }
  rewrite Hi1 in Hres1. injection Hres1 as ->. unfold b in *. lia.
Qed.

Lemma same_bucket_closer_witness :
  exists i', getBucketIndexFromDifferingBit (lowID x20) (lowID x3f) = Some i' /\
    0 <= i' < 5.
Proof.
  apply (same_bucket_closer zeroID (lowID x20) (lowID x3f) 5);
    try reflexivity; discriminate.
Defined.

(** ** Bits of a byte *)

(** X6. [hasBit] reads a byte from its most significant bit: for a
    position up to 7 it is bit [7 - pos] of the byte. For any larger
    position the unsigned [7 - pos] wraps around, the shift leaves nothing
    in the byte, and the answer is [false]. *)
Theorem hasBit_spec (n : byte) (pos : Z) :
  0 <= pos < 2 ^ 64 ->
  hasBit n pos = if pos <=? 7 then Z.testbit (byteZ n) (7 - pos) else false.
Proof.
  intros Hpos. destruct (Z.leb_spec pos 7) as [Hlow | Hhigh].
  - apply hasBit_testbit. lia.
  - unfold hasBit.
    set (q := (7 - pos) mod 2 ^ 64).
    assert (Hq : 8 <= q).
    { unfold q. replace (7 - pos) with (2 ^ 64 + 7 - pos + (-1) * 2 ^ 64) by lia.
      rewrite Z.mod_add by lia. rewrite Z.mod_small; lia. }
    rewrite Z.shiftl_1_l.
    replace q with (8 + (q - 8)) by lia.
    rewrite Z.pow_add_r by lia.
    change (2 ^ 8) with 256. rewrite Z.mul_comm, Z.mod_mul by lia.
    by rewrite Z.land_0_r.
Qed.

Lemma hasBit_spec_witness :
  hasBit x80 0 = true /\ hasBit xff 8 = false.
Proof.
  split.
  - rewrite (hasBit_spec x80 0); [reflexivity | lia].
  - rewrite (hasBit_spec xff 8); [reflexivity | lia].
Defined.

(** ** Insertion *)

Lemma addNode_room (ht : hashTable) (n : node) (idx : Z) (bucket : list node) :
  getBucketIndexFromDifferingBit (ID (Self ht)) (ID n) = Some idx ->
  sliceAt (RoutingTable ht) idx = Some bucket ->
  alreadyExists bucket n = false ->
  Z.of_nat (length bucket) < k ->
  addNode ht n
  = Some {| Self := Self ht;
            RoutingTable := <[Z.to_nat idx := bucket ++ [n]]> (RoutingTable ht) |}.
Proof.
  intros Hidx Hbucket Hnew Hroom. unfold addNode.
  rewrite Hidx. cbn [mbind option_bind]. rewrite Hbucket. cbn [mbind option_bind].
  rewrite Hnew, length_app. cbn [length].
  destruct (Z.gtb_spec (Z.of_nat (length bucket + 1)) k) as [Hfull | _]; [lia |].
  reflexivity.
Qed.

Lemma addNode_full_same (ht : hashTable) (n : node) (idx : Z) (bucket : list node) :
  getBucketIndexFromDifferingBit (ID (Self ht)) (ID n) = Some idx ->
  sliceAt (RoutingTable ht) idx = Some bucket ->
  alreadyExists bucket n = false ->
  k <= Z.of_nat (length bucket) ->
  addNode ht n = Some ht.
Proof.
  intros Hidx Hbucket Hnew Hfull. unfold addNode.
  rewrite Hidx. cbn [mbind option_bind]. rewrite Hbucket. cbn [mbind option_bind].
  rewrite Hnew, length_app. cbn [length].
  destruct (Z.gtb_spec (Z.of_nat (length bucket + 1)) k) as [_ | Hroom]; [| lia].
  replace (length bucket + 1 - 1)%nat with (length bucket) by lia.
  apply sliceAt_lookup in Hbucket as [_ Hbucket].
  rewrite take_app_length, list_insert_id by done.
  by rewrite hashTable_eta.
Qed.

Lemma sliceAt_insert_eq {A : Type} (s : list A) (i : Z) (x y : A) :
  sliceAt s i = Some x -> sliceAt (<[Z.to_nat i := y]> s) i = Some y.
Proof.
  unfold sliceAt. destruct (i <? 0); [discriminate |].
  intros H. apply list_lookup_insert_eq. by eapply lookup_lt_Some.
Qed.

Lemma sliceAt_insert_ne {A : Type} (s : list A) (i j : Z) (y : A) :
  0 <= i -> j <> i -> sliceAt (<[Z.to_nat i := y]> s) j = sliceAt s j.
Proof.
  intros Hi Hne. unfold sliceAt.
  destruct (Z.ltb_spec j 0) as [? | Hj]; [reflexivity |].
  apply list_lookup_insert_ne. lia.
Qed.

(** X7. A contact with a new identifier whose target bucket holds fewer
    than [k] contacts is appended at the end of that bucket; every other
    bucket and [Self] stay as they are, and the table then holds the
    identifier. *)
Theorem addNode_appends (ht : hashTable) (n : node) (idx : Z) (bucket : list node) :
  getBucketIndexFromDifferingBit (ID (Self ht)) (ID n) = Some idx ->
  sliceAt (RoutingTable ht) idx = Some bucket ->
  Forall (fun v => ID v <> ID n) bucket ->
  Z.of_nat (length bucket) < k ->
  exists ht',
    addNode ht n = Some ht' /\
    Self ht' = Self ht /\
    sliceAt (RoutingTable ht') idx = Some (bucket ++ [n]) /\
    (forall j, j <> idx -> sliceAt (RoutingTable ht') j = sliceAt (RoutingTable ht) j) /\
    holds ht' (ID n).
Proof.
  intros Hidx Hbucket Hdistinct Hroom.
  assert (Hnew : alreadyExists bucket n = false).
  { apply alreadyExists_false. by apply Forall_forall. }
  eexists. split; [by apply (addNode_room ht n idx bucket) |].
  cbn [Self RoutingTable].
  pose proof (sliceAt_lookup _ _ _ Hbucket) as [Hpos _].
  split; [reflexivity |]. split; [by eapply sliceAt_insert_eq |].
  split; [intros j Hj; by apply sliceAt_insert_ne |].
  exists (bucket ++ [n]), n. split; [| split; [| reflexivity]].
  - apply list_elem_of_lookup. exists (Z.to_nat idx).
    pose proof (sliceAt_insert_eq _ _ _ (bucket ++ [n]) Hbucket) as Hnew'.
    by apply sliceAt_lookup in Hnew' as [_ ?].
  - apply elem_of_app. right. left.
Qed.

Lemma addNode_appends_witness :
  exists ht',
    addNode table0_one (contact (lowID x21)) = Some ht' /\
    Self ht' = Self table0_one /\
    sliceAt (RoutingTable ht') 5 = Some ([] ++ [contact (lowID x21)]) /\
    (forall j, j <> 5 ->
       sliceAt (RoutingTable ht') j = sliceAt (RoutingTable table0_one) j) /\
    holds ht' (ID (contact (lowID x21))).
Proof.
  apply (addNode_appends table0_one (contact (lowID x21)) 5 []).
  - reflexivity.
  - reflexivity.
  - apply Forall_nil_2.
  - reflexivity.
Defined.

(** X8. A second call with the same contact changes nothing: whatever the
    first call did (appended the contact, found its identifier, or dropped
    it at a full bucket), the table it returns is a fixed point for that
    contact. *)
Theorem addNode_twice (ht ht' : hashTable) (n : node) :
  addNode ht n = Some ht' -> addNode ht' n = Some ht'.
Proof.
  intros H. pose proof H as Hcases. apply addNode_cases in Hcases
    as (idx & bucket & Hidx & Hpos & Hbucket &
        [[_ ->] | [(Hnew & Hroom & ->) | (_ & _ & ->)]]); try exact H.
  unfold addNode. cbn [Self RoutingTable]. rewrite Hidx.
  cbn [mbind option_bind].
  assert (Hslice : sliceAt (<[Z.to_nat idx := bucket ++ [n]]> (RoutingTable ht)) idx
                   = Some (bucket ++ [n])).
  { apply (sliceAt_insert_eq _ _ bucket). unfold sliceAt.
    by destruct (Z.ltb_spec idx 0) as [? | _]; [lia |]. }
  rewrite Hslice. cbn [mbind option_bind].
  assert (alreadyExists (bucket ++ [n]) n = true) as ->; [| reflexivity].
  apply alreadyExists_true. exists n. split; [| reflexivity].
  apply elem_of_app. right. left.
Qed.

Lemma addNode_twice_witness :
  addNode table0_self (contact zeroID) = Some table0_self.
Proof.
  apply (addNode_twice table0 table0_self (contact zeroID)).
  reflexivity.
Defined.

Lemma addNode_prefix (ht ht' : hashTable) (n : node) (i : nat) (bucket : list node) :
  addNode ht n = Some ht' -> RoutingTable ht !! i = Some bucket ->
  exists bucket',
    RoutingTable ht' !! i = Some bucket' /\ bucket `prefix_of` bucket'.
Proof.
  intros H Hi. apply addNode_cases in H
    as (idx & old & _ & _ & Hold &
        [[_ ->] | [(_ & _ & ->) | (_ & _ & ->)]]); try by exists bucket.
  cbn [RoutingTable]. destruct (decide (i = Z.to_nat idx)) as [-> | Hne].
  - exists (old ++ [n]). rewrite list_lookup_insert_eq by (by eapply lookup_lt_Some).
    split; [reflexivity |]. rewrite Hold in Hi. injection Hi as ->.
    by apply prefix_app_r.
  - exists bucket. by rewrite list_lookup_insert_ne.
Qed.

(** X9. Insertion only ever appends. After any sequence of [addNode]
    calls [Self] is the same, the number of buckets is the same, and every
    bucket begins with the contacts it held before, in the same order: no
    contact is removed, replaced or moved. *)
Theorem addNodes_only_append (ns : list node) (ht ht' : hashTable) :
  addNodes ht ns = Some ht' ->
  Self ht' = Self ht /\
  length (RoutingTable ht') = length (RoutingTable ht) /\
  forall i bucket, RoutingTable ht !! i = Some bucket ->
    exists bucket',
      RoutingTable ht' !! i = Some bucket' /\ bucket `prefix_of` bucket'.
Proof.
  intros Hadd. split; [by eapply addNodes_Self |].
  split; [by eapply addNodes_length |].
  revert ht Hadd. induction ns as [| n ns IH]; intros ht Hadd i bucket Hi;
    cbn [addNodes] in Hadd.
  - injection Hadd as <-. by exists bucket.
  - apply bind_Some in Hadd as (ht1 & Hadd1 & Hadd).
    destruct (addNode_prefix _ _ _ _ _ Hadd1 Hi) as (bucket1 & Hi1 & Hpre1).
    destruct (IH _ Hadd _ _ Hi1) as (bucket' & Hi' & Hpre').
    exists bucket'. split; [exact Hi' |]. by etrans.
Qed.

Lemma addNodes_only_append_witness :
  Self table0_full = Self table0 /\
  length (RoutingTable table0_full) = length (RoutingTable table0) /\
  forall i bucket, RoutingTable table0 !! i = Some bucket ->
    exists bucket',
      RoutingTable table0_full !! i = Some bucket' /\ bucket `prefix_of` bucket'.
Proof.
  apply (addNodes_only_append (map (fun x => contact (lowID x)) (bytesFrom 32 25))
           table0 table0_full).
  vm_compute. reflexivity.
Defined.

(** X10. After any sequence of [addNode] calls on a freshly constructed
    table no identifier names two contacts, in one bucket or in two. *)
Theorem addNode_no_duplicate_identifiers
    (ParseIP : string -> net_IP) (Atoi : string -> Z * option error)
    (rand_Read : list byte -> list byte * option error) (options : Options)
    (ht0 ht : hashTable) (ns : list node) :
  newHashTable ParseIP Atoi rand_Read options = Returns (Some ht0, None) ->
  addNodes ht0 ns = Some ht ->
  NoDup (ID <$> concat (RoutingTable ht)).
Proof.
  intros Hnew Hadd. eapply addNodes_unique; [| | exact Hadd].
  - by eapply fresh_placed.
  - by eapply fresh_unique.
Qed.

Lemma addNode_no_duplicate_identifiers_witness :
  NoDup (ID <$> concat (RoutingTable table0_full)).
Proof.
  apply (addNode_no_duplicate_identifiers ParseIP_ex Atoi_ex rand_ok options0
           table0 table0_full
           (map (fun x => contact (lowID x)) (bytesFrom 32 20 ++ bytesFrom 32 20))).
  - reflexivity.
  - vm_compute. reflexivity.
Defined.

(** X11. After any sequence of [addNode] calls on a freshly constructed
    table every contact sits in the bucket whose index is the bucket index
    of its identifier against [Self]. *)
Theorem addNode_contacts_in_home_bucket
    (ParseIP : string -> net_IP) (Atoi : string -> Z * option error)
    (rand_Read : list byte -> list byte * option error) (options : Options)
    (ht0 ht : hashTable) (ns : list node) (i : nat) (bucket : list node) (v : node) :
  newHashTable ParseIP Atoi rand_Read options = Returns (Some ht0, None) ->
  addNodes ht0 ns = Some ht ->
  RoutingTable ht !! i = Some bucket -> v ∈ bucket ->
  getBucketIndexFromDifferingBit (ID (Self ht)) (ID v) = Some (Z.of_nat i).
Proof.
  intros Hnew Hadd. apply (addNodes_placed ns ht0 ht); [| exact Hadd].
  by eapply fresh_placed.
Qed.

Lemma addNode_contacts_in_home_bucket_witness :
  getBucketIndexFromDifferingBit (ID (Self table0_full)) (ID (contact (lowID x21)))
  = Some (Z.of_nat 5).
Proof.
  apply (addNode_contacts_in_home_bucket ParseIP_ex Atoi_ex rand_ok options0
           table0 table0_full (map (fun x => contact (lowID x)) (bytesFrom 32 25))
           5%nat twenty (contact (lowID x21))).
  - reflexivity.
  - vm_compute. reflexivity.
  - reflexivity.
  - vm_compute. right. left.
Defined.

(** X12. Insertion cannot fail on well-formed input: on a table of 160
    buckets whose [Self] identifier has at most 20 bytes, a sequence of
    [addNode] calls with contacts whose identifiers are at least as long
    returns, every index staying within the table. *)
Theorem addNodes_never_panics (ns : list node) (ht : hashTable) :
  length (RoutingTable ht) = 160%nat ->
  (length (ID (Self ht)) <= 20)%nat ->
  Forall (fun n => (length (ID (Self ht)) <= length (ID n))%nat) ns ->
  exists ht', addNodes ht ns = Some ht'.
Proof. apply addNodes_total. Qed.

Lemma addNodes_never_panics_witness :
  exists ht',
    addNodes table0 (map (fun x => contact (lowID x)) (bytesFrom 32 25)) = Some ht'.
Proof.
  apply (addNodes_never_panics (map (fun x => contact (lowID x)) (bytesFrom 32 25))
           table0).
  - reflexivity.
  - vm_compute. lia.
  - apply (bool_decide_unpack _). vm_compute. exact I.
Defined.

Lemma addNodes_same_bucket (ns : list node) (ht : hashTable) (idx : Z)
    (pre : list node) :
  sliceAt (RoutingTable ht) idx = Some pre ->
  Z.of_nat (length pre) <= k ->
  Forall (fun n => getBucketIndexFromDifferingBit (ID (Self ht)) (ID n) = Some idx) ns ->
  NoDup (ID <$> (pre ++ ns)) ->
  exists ht',
    addNodes ht ns = Some ht' /\ Self ht' = Self ht /\
    sliceAt (RoutingTable ht') idx = Some (take (Z.to_nat k) (pre ++ ns)) /\
    forall j, j <> idx -> sliceAt (RoutingTable ht') j = sliceAt (RoutingTable ht) j.
Proof.
  revert ht pre. induction ns as [| n ns IH]; intros ht pre Hpre Hlen Hidx Hnodup;
    cbn [addNodes].
  - exists ht. rewrite app_nil_r, take_ge by lia. done.
  - apply Forall_cons in Hidx as [Hn Hidx].
    assert (Hnew : alreadyExists pre n = false).
    { apply alreadyExists_false. intros v Hv Hid.
      rewrite fmap_app, fmap_cons in Hnodup.
      apply NoDup_app in Hnodup as (_ & Hdisj & _).
      apply (Hdisj (ID v)); [by apply list_elem_of_fmap_2 |]. rewrite Hid. left. }
    pose proof (sliceAt_lookup _ _ _ Hpre) as [Hpos _].
    destruct (Z_lt_le_dec (Z.of_nat (length pre)) k) as [Hroom | Hfull].
    + rewrite (addNode_room ht n idx pre) by done. cbn [mbind option_bind].
      destruct (IH {| Self := Self ht;
                      RoutingTable := <[Z.to_nat idx := pre ++ [n]]> (RoutingTable ht) |}
                   (pre ++ [n]))
        as (ht' & Hadd & Hself & Hbucket & Hframe).
      * by eapply sliceAt_insert_eq.
      * rewrite length_app. cbn [length]. lia.
      * exact Hidx.
      * by rewrite <- app_assoc.
      * exists ht'. split; [exact Hadd |]. split; [exact Hself |].
        split; [by rewrite <- app_assoc in Hbucket |].
        intros j Hj. rewrite (Hframe j Hj). by apply sliceAt_insert_ne.
    + rewrite (addNode_full_same ht n idx pre) by done. cbn [mbind option_bind].
      destruct (IH ht pre) as (ht' & Hadd & Hself & Hbucket & Hframe); try done.
      * rewrite fmap_app, fmap_cons in Hnodup. rewrite fmap_app.
        apply NoDup_app in Hnodup as (Hpre' & Hdisj & Hns).
        apply NoDup_cons in Hns as [_ Hns].
        apply NoDup_app. split; [exact Hpre' |]. split; [| exact Hns].
        intros x Hx Hx'. apply (Hdisj x Hx). by right.
      * exists ht'. split; [exact Hadd |]. split; [exact Hself |].
        split; [| exact Hframe].
        rewrite Hbucket. f_equal.
        rewrite !take_app_le by lia. reflexivity.
Qed.

(** X13. First come, first kept: when contacts with pairwise different
    identifiers, all of one bucket, are inserted into a table where that
    bucket is empty, the bucket ends up holding the first [k] = 20 of them
    in the order of insertion; the later ones are dropped, and no other
    bucket changes. *)
Theorem addNodes_keeps_first_k (ns : list node) (ht : hashTable) (idx : Z) :
  sliceAt (RoutingTable ht) idx = Some [] ->
  Forall (fun n => getBucketIndexFromDifferingBit (ID (Self ht)) (ID n) = Some idx) ns ->
  NoDup (ID <$> ns) ->
  exists ht',
    addNodes ht ns = Some ht' /\
    sliceAt (RoutingTable ht') idx = Some (take 20 ns) /\
    forall j, j <> idx -> sliceAt (RoutingTable ht') j = sliceAt (RoutingTable ht) j.
Proof.
  intros Hempty Hidx Hnodup.
  destruct (addNodes_same_bucket ns ht idx [] Hempty) as (ht' & Hadd & _ & Hbucket & Hframe);
    try done.
  exists ht'. by repeat split.
Qed.

Lemma addNodes_keeps_first_k_witness :
  exists ht',
    addNodes table0 (map (fun x => contact (lowID x)) (bytesFrom 32 25)) = Some ht' /\
    sliceAt (RoutingTable ht') 5
      = Some (take 20 (map (fun x => contact (lowID x)) (bytesFrom 32 25))) /\
    forall j, j <> 5 -> sliceAt (RoutingTable ht') j = sliceAt (RoutingTable table0) j.
Proof.
  apply (addNodes_keeps_first_k (map (fun x => contact (lowID x)) (bytesFrom 32 25))
           table0 5).
  - reflexivity.
  - apply (bool_decide_unpack _). vm_compute. exact I.
  - apply (bool_decide_unpack _). vm_compute. exact I.
Defined.

(** ** The probe sequence *)

Lemma indexListLoop_exact (home : Z) (fuel : nat) (t : Z) (l : list Z) :
  0 <= t <= b - 1 ->
  Z.of_nat (length l) = 1 + Z.max 0 (Z.min t (b - 1 - home)) + Z.max 0 (Z.min t home) ->
  b - 1 <= t + Z.of_nat fuel ->
  exists r, indexListLoop fuel l (home - 1 - t) (home + 1 + t) = Some r /\
    Z.of_nat (length r) = b.
Proof.
  revert t l. induction fuel as [| fuel IH]; intros t l Ht Hlen Hfuel;
    cbn [indexListLoop];
    destruct (Z.ltb_spec (Z.of_nat (length l)) b) as [Hshort | Hdone].
  - unfold b in *. lia.
  - exists l. split; [reflexivity |]. unfold b in *. lia.
  - replace (home - 1 - t - 1) with (home - 1 - (t + 1)) by lia.
    replace (home + 1 + t + 1) with (home + 1 + (t + 1)) by lia.
    apply IH; [unfold b in *; lia | | lia].
    destruct (Z.ltb_spec (home + 1 + t) b), (Z.geb_spec (home - 1 - t) 0);
      rewrite ?length_app; cbn [length]; unfold b in *; lia.
  - exists l. split; [reflexivity |]. unfold b in *. lia.
Qed.

(** X14. The loop that builds the probe sequence ends for every home
    index, in the table or not, and the list it builds has exactly
    [b] = 160 entries. *)
Theorem buildIndexList_length (home : Z) :
  exists l, buildIndexList home = Some l /\ length l = 160%nat.
Proof.
  unfold buildIndexList.
  replace (home - 1) with (home - 1 - 0) by lia.
  replace (home + 1) with (home + 1 + 0) by lia.
  destruct (indexListLoop_exact home (Z.to_nat b) 0 [home]) as (r & Hr & Hlen);
    [unfold b; lia | cbn [length]; unfold b; lia | unfold b; lia |].
  exists r. split; [exact Hr |]. unfold b in Hlen. lia.
Qed.

Lemma StronglySorted_filter {A : Type} (R : relation A) (P : A -> Prop)
    `{forall x, Decision (P x)} (l : list A) :
  StronglySorted R l -> StronglySorted R (filter P l).
Proof.
  induction 1 as [| x l Hs IH Hx]; [constructor |].
  rewrite filter_cons. destruct (decide (P x)); [| exact IH].
  constructor; [exact IH |].
  apply Forall_forall. intros y Hy. apply list_elem_of_filter in Hy as [_ Hy].
  rewrite Forall_forall in Hx. by apply Hx.
Qed.

Lemma alternating_near (home : Z) (n : nat) (x : Z) :
  x ∈ alternating home (Z.of_nat n) -> Z.abs (x - home) <= Z.of_nat n.
Proof.
  unfold alternating. intros Hx. apply elem_of_cons in Hx as [-> | Hx]; [lia |].
  apply list_elem_of_bind in Hx as (d & Hx & Hd).
  apply elem_of_seqZ in Hd. apply elem_of_pair in Hx. lia.
Qed.

Lemma alternating_sorted (home : Z) (n : nat) :
  StronglySorted (fun x y => Z.abs (x - home) <= Z.abs (y - home))
    (alternating home (Z.of_nat n)).
Proof.
  induction n as [| n IH].
  - unfold alternating. rewrite (seqZ_nil 1 (Z.of_nat 0)) by lia.
    repeat constructor.
  - replace (Z.of_nat (S n)) with (Z.of_nat n + 1) by lia.
    rewrite alternating_snoc by lia.
    apply StronglySorted_app_2; [| exact IH |].
    + intros x y Hx Hy. apply alternating_near in Hx.
      apply elem_of_pair in Hy. lia.
    + repeat constructor. lia.
Qed.

(** X15. Nearest buckets first: for a home index in the table the probe
    sequence is in non-decreasing order of index distance from home, and
    it starts at the home bucket. *)
Theorem buildIndexList_nearest_first (home : Z) :
  0 <= home < b ->
  exists l,
    buildIndexList home = Some l /\
    head l = Some home /\
    StronglySorted (fun x y => Z.abs (x - home) <= Z.abs (y - home)) l.
Proof.
  intros Hhome. exists (probeSequence home).
  split; [by apply buildIndexList_spec |]. split.
  - unfold probeSequence, alternating. by rewrite filter_cons_True by lia.
  - unfold probeSequence. apply StronglySorted_filter.
    replace (b - 1) with (Z.of_nat 159) by (unfold b; lia).
    apply alternating_sorted.
Qed.

Lemma buildIndexList_nearest_first_witness :
  exists l,
    buildIndexList 5 = Some l /\
    head l = Some 5 /\
    StronglySorted (fun x y => Z.abs (x - 5) <= Z.abs (y - 5)) l.
Proof.
  apply (buildIndexList_nearest_first 5). unfold b. lia.
Defined.

(** ** The closest-contacts query *)




Lemma probeLoop_nonpositive (ht : hashTable) (ignoredNodes : list NetworkNode)
    (indexList : list Z) (sl : shortList) (leftToAdd : Z) :
  leftToAdd <= 0 -> probeLoop ht ignoredNodes indexList sl leftToAdd = Some sl.
Proof.
  intros Hn. destruct indexList; cbn [probeLoop];
    by destruct (Z.gtb_spec leftToAdd 0) as [? | _]; [lia |].
Qed.

(** X17. A query for no contact, or for a negative number of contacts,
    returns the empty shortlist without reading a bucket: it returns as
    long as the target is at least as long as the [Self] identifier,
    whatever the table, the home index and the ignore list. *)
Theorem getClosestContacts_nonpositive (ht : hashTable) (num : Z)
    (target : list byte) (ignoredNodes : list NetworkNode) :
  num <= 0 ->
  (length (ID (Self ht)) <= length target)%nat ->
  getClosestContacts ht num target ignoredNodes = Some shortList_zero.
Proof.
  intros Hnum Hlen.
  assert (exists home, getBucketIndexFromDifferingBit (ID (Self ht)) target = Some home)
    as [home Hhome].
  { destruct (getBucketIndex_cases _ _ Hlen) as [(p & _ & _ & Hres) | [_ Hres]];
      eauto. }
  destruct (buildIndexList_terminates home) as [indexList Hbuild].
  unfold getClosestContacts, collectContacts.
  rewrite (bind_eq_Some _ _ _ Hhome), (bind_eq_Some _ _ _ Hbuild).
  by rewrite probeLoop_nonpositive.
Qed.

Lemma getClosestContacts_nonpositive_witness :
  getClosestContacts {| Self := Self table0; RoutingTable := [] |} (-1) (lowID x20)
    [contact (lowID x01)]
  = Some shortList_zero.
Proof.
  apply (getClosestContacts_nonpositive
           {| Self := Self table0; RoutingTable := [] |} (-1) (lowID x20)
           [contact (lowID x01)]).
  - lia.
  - vm_compute. lia.
Defined.

Lemma probeSequence_head (home : Z) :
  0 <= home < b ->
  exists rest, probeSequence home = home :: rest.
Proof.
  intros Hhome. unfold probeSequence, alternating.
  rewrite filter_cons_True by lia. by eexists.
Qed.

(** X18. The home bucket is served first: with no ignore list, a query
    for at most as many contacts as the home bucket of the target holds
    returns contacts of that bucket only, from its first [num] in storage
    order; all of these when their identifiers differ. *)
Theorem getClosestContacts_home_bucket_first (ht : hashTable) (num : Z)
    (target : list byte) (home : Z) (bucket : list node) :
  wellFormed ht target ->
  getBucketIndexFromDifferingBit (ID (Self ht)) target = Some home ->
  sliceAt (RoutingTable ht) home = Some bucket ->
  num <= Z.of_nat (length bucket) ->
  exists sl,
    getClosestContacts ht num target [] = Some sl /\
    (forall v, v ∈ Nodes sl -> v ∈ take (Z.to_nat num) bucket) /\
    (NoDup (ID <$> bucket) -> Nodes sl ≡ₚ take (Z.to_nat num) bucket).
Proof.
  intros Hwf Hhome Hbucket Hnum.
  destruct (getClosestContacts_spec ht num target [] Hwf)
    as (home' & Hrange & Hhome' & _ & Hsl).
  assert (home' = home) as -> by congruence.
  destruct (probeSequence_head home Hrange) as [rest Hrest].
  rewrite Hrest, candidates_cons, Hbucket in Hsl.
  change (eligible [] (default [] (Some bucket))) with bucket in Hsl.
  rewrite take_app_le in Hsl by lia.
  eexists. split; [exact Hsl |]. cbn [sort_Sort Nodes]. split.
  - intros v. rewrite sortNodes_Permutation. intros Hv.
    apply AppendUnique_elem_of in Hv as [Hv | Hv]; [by apply elem_of_nil in Hv | done].
  - intros Hnodup. rewrite sortNodes_Permutation.
    rewrite AppendUnique_NoDup; [reflexivity |].
    cbn [shortList_zero Nodes app].
    eapply sublist_NoDup; [exact Hnodup |].
    apply fmap_sublist, sublist_take.
Qed.

Lemma getClosestContacts_home_bucket_first_witness :
  exists sl,
    getClosestContacts table0_full 3 (lowID x21) [] = Some sl /\
    (forall v, v ∈ Nodes sl -> v ∈ take (Z.to_nat 3) twenty) /\
    (NoDup (ID <$> twenty) -> Nodes sl ≡ₚ take (Z.to_nat 3) twenty).
Proof.
  apply (getClosestContacts_home_bucket_first table0_full 3 (lowID x21) 5 twenty).
  - repeat split.
  - reflexivity.
  - reflexivity.
  - vm_compute. discriminate.
Defined.

(** X19. Insert, then look up: in a table built by [addNode] calls from a
    fresh one, with 20-byte identifiers, every contact the table holds is
    returned by a query for [k] = 20 contacts closest to its own
    identifier. *)
Theorem getClosestContacts_finds_held_contact
    (ParseIP : string -> net_IP) (Atoi : string -> Z * option error)
    (rand_Read : list byte -> list byte * option error) (options : Options)
    (ht0 ht : hashTable) (ns : list node) (bucket : list node) (v : node) :
  newHashTable ParseIP Atoi rand_Read options = Returns (Some ht0, None) ->
  addNodes ht0 ns = Some ht ->
  length (ID (Self ht)) = 20%nat -> length (ID v) = 20%nat ->
  bucket ∈ RoutingTable ht -> v ∈ bucket ->
  exists sl, getClosestContacts ht k (ID v) [] = Some sl /\ v ∈ Nodes sl.
Proof.
  intros Hnew Hadd Hself Hv Hbucket Hin.
  assert (Hrt : length (RoutingTable ht) = Z.to_nat b).
  { rewrite (addNodes_length _ _ _ Hadd).
    apply newHashTable_Some in Hnew as [_ ->]. reflexivity. }
  assert (Hwf : wellFormed ht (ID v)) by done.
  assert (Hp : placed ht).
  { eapply addNodes_placed; [| exact Hadd]. by eapply fresh_placed. }
  assert (Hb : bounded ht).
  { eapply addNodes_bounded; [| exact Hadd]. by eapply fresh_bounded. }
  assert (Hu : unique ht).
  { eapply addNodes_unique; [| | exact Hadd];
      [by eapply fresh_placed | by eapply fresh_unique]. }
  destruct (getClosestContacts_spec ht k (ID v) [] Hwf)
    as (home & Hrange & Hhome & _ & Hsl).
  pose proof (candidates_all ht home Hrt Hrange) as Hall.
  apply list_elem_of_lookup in Hbucket as [i Hi].
  pose proof (Hp i bucket v Hi Hin) as Hplace.
  assert (home = Z.of_nat i) as -> by congruence.
  assert (Hlen : Z.of_nat (length bucket) <= k).
  { unfold bounded in Hb. rewrite Forall_forall in Hb. apply Hb.
    apply list_elem_of_lookup. by exists i. }
  destruct (probeSequence_head _ Hrange) as [rest Hrest].
  set (cands := candidates ht [] (probeSequence (Z.of_nat i))) in *.
  assert (Hcands : exists more, cands = bucket ++ more).
  { unfold cands. rewrite Hrest, candidates_cons. unfold sliceAt.
    destruct (Z.ltb_spec (Z.of_nat i) 0) as [? | _]; [lia |].
    rewrite Nat2Z.id, Hi. by eexists. }
  destruct Hcands as [more Hmore].
  eexists. split; [exact Hsl |]. cbn [sort_Sort Nodes].
  rewrite sortNodes_Permutation, AppendUnique_NoDup.
  - cbn [shortList_zero Nodes app]. rewrite Hmore.
    rewrite take_app_ge by (unfold k in *; lia).
    apply elem_of_app. by left.
  - cbn [shortList_zero Nodes app].
    eapply sublist_NoDup; [| apply fmap_sublist, sublist_take].
    unfold unique in Hu. by rewrite Hall.
Qed.

Lemma getClosestContacts_finds_held_contact_witness :
  exists sl,
    getClosestContacts table0_full k (ID (contact (lowID x33))) [] = Some sl /\
    contact (lowID x33) ∈ Nodes sl.
Proof.
  apply (getClosestContacts_finds_held_contact ParseIP_ex Atoi_ex rand_ok options0
           table0 table0_full (map (fun x => contact (lowID x)) (bytesFrom 32 25))
           twenty (contact (lowID x33))).
  - reflexivity.
  - vm_compute. reflexivity.
  - reflexivity.
  - reflexivity.
  - apply list_elem_of_lookup. by exists 5%nat.
  - apply list_elem_of_lookup. exists 19%nat. vm_compute. reflexivity.
Defined.

(** X20. In a table built by [addNode] calls from a fresh one, with
    20-byte identifiers and no ignore list, a query for at least as many
    contacts as the table holds returns every contact of the table, each
    once. *)
Theorem getClosestContacts_whole_table
    (ParseIP : string -> net_IP) (Atoi : string -> Z * option error)
    (rand_Read : list byte -> list byte * option error) (options : Options)
    (ht0 ht : hashTable) (ns : list node) (num : Z) (target : list byte) :
  newHashTable ParseIP Atoi rand_Read options = Returns (Some ht0, None) ->
  addNodes ht0 ns = Some ht ->
  length (ID (Self ht)) = 20%nat -> length target = 20%nat ->
  Z.of_nat (length (concat (RoutingTable ht))) <= num ->
  exists sl,
    getClosestContacts ht num target [] = Some sl /\
    Nodes sl ≡ₚ concat (RoutingTable ht) /\
    NoDup (Nodes sl).
Proof.
  intros Hnew Hadd Hself Htarget Hnum.
  destruct (getClosestContacts_returns_all ParseIP Atoi rand_Read options ht0 ht ns
              num target Hnew Hadd Hself Htarget Hnum) as (sl & Hsl & Hperm).
  exists sl. split; [exact Hsl |]. split; [exact Hperm |].
  rewrite Hperm. apply (NoDup_fmap_1 ID).
  eapply addNodes_unique; [| | exact Hadd];
    [by eapply fresh_placed | by eapply fresh_unique].
Qed.

Lemma getClosestContacts_whole_table_witness :
  exists sl,
    getClosestContacts table0_full 25 (lowID x01) [] = Some sl /\
    Nodes sl ≡ₚ concat (RoutingTable table0_full) /\
    NoDup (Nodes sl).
Proof.
  apply (getClosestContacts_whole_table ParseIP_ex Atoi_ex rand_ok options0
           table0 table0_full (map (fun x => contact (lowID x)) (bytesFrom 32 25))
           25 (lowID x01)).
  - reflexivity.
  - vm_compute. reflexivity.
  - reflexivity.
  - reflexivity.
  - vm_compute. discriminate.
Defined.

(** X21. The target enters the query through the home index only: two
    targets with the same bucket index against [Self] get the same answer,
    the same contacts in the same order, however far from each other the
    contacts are from the two targets. *)
Theorem getClosestContacts_target_through_home (ht : hashTable) (num : Z)
    (target1 target2 : list byte) (ignoredNodes : list NetworkNode) :
  getBucketIndexFromDifferingBit (ID (Self ht)) target1
  = getBucketIndexFromDifferingBit (ID (Self ht)) target2 ->
  getClosestContacts ht num target1 ignoredNodes
  = getClosestContacts ht num target2 ignoredNodes.
Proof.
  intros Hhome. unfold getClosestContacts, collectContacts. by rewrite Hhome.
Qed.

Lemma getClosestContacts_target_through_home_witness :
  getClosestContacts table0_two 2 (lowID x02) []
  = getClosestContacts table0_two 2 (lowID x03) [].
Proof.
  apply (getClosestContacts_target_through_home table0_two 2 (lowID x02) (lowID x03) []).
  reflexivity.
Defined.

(** ** Construction *)

(** X22. With an identifier in the options the constructor does not
    consult the random source: its outcome is the same for every random
    source, and it is never a panic. *)
Theorem newHashTable_supplied_ID
    (ParseIP : string -> net_IP) (Atoi : string -> Z * option error)
    (rand_Read rand_Read' : list byte -> list byte * option error)
    (options : Options) (id : list byte) :
  Options_ID options = Some id ->
  newHashTable ParseIP Atoi rand_Read options
    = newHashTable ParseIP Atoi rand_Read' options /\
  exists r, newHashTable ParseIP Atoi rand_Read options = Returns r.
Proof.
  intros Hid. unfold newHashTable. rewrite Hid. split; [reflexivity |].
  destruct ((Options_IP options =? "")%string || (Options_Port options =? "")%string);
    [by eexists |].
  destruct (Atoi (Options_Port options)) as [port [err |]]; by eexists.
Qed.

Lemma newHashTable_supplied_ID_witness :
  newHashTable ParseIP_ex Atoi_ex rand_fails options0
    = newHashTable ParseIP_ex Atoi_ex rand_ok options0 /\
  exists r, newHashTable ParseIP_ex Atoi_ex rand_fails options0 = Returns r.
Proof.
  apply (newHashTable_supplied_ID ParseIP_ex Atoi_ex rand_fails rand_ok options0 zeroID).
  reflexivity.
Defined.

(** X23. What a returned table carries: the identifier of the options as
    it is, of whatever length, or else the bytes of the random source; the
    address that [net.ParseIP] gives for the IP option, which is not
    checked, so that a string that is no address is accepted; and the
    parsed port. A table is returned only for a non-empty IP, a non-empty
    Port and a Port that parses. *)
Theorem newHashTable_Self
    (ParseIP : string -> net_IP) (Atoi : string -> Z * option error)
    (rand_Read : list byte -> list byte * option error)
    (options : Options) (ht : hashTable) (e : option error) :
  newHashTable ParseIP Atoi rand_Read options = Returns (Some ht, e) ->
  ID (Self ht) = default (newID rand_Read).1 (Options_ID options) /\
  IP (Self ht) = ParseIP (Options_IP options) /\
  Port (Self ht) = (Atoi (Options_Port options)).1 /\
  Options_IP options <> EmptyString /\ Options_Port options <> EmptyString /\
  (Atoi (Options_Port options)).2 = None.
Proof.
  unfold newHashTable. intros H.
  assert (exists id,
    match Options_ID options with
    | Some id => Returns id
    | None => match newID rand_Read with
              | (_, Some err) => Panics err
              | (id, None) => Returns id
              end
    end = Returns id /\ id = default (newID rand_Read).1 (Options_ID options))
    as (id & Hid & Hdef).
  { destruct (Options_ID options) as [id |]; [by exists id |].
    destruct (newID rand_Read) as [id [err |]]; [discriminate | by exists id]. }
  rewrite Hid in H.
  destruct (String.eqb_spec (Options_IP options) "") as [| HIP]; [discriminate |].
  destruct (String.eqb_spec (Options_Port options) "") as [| HPort]; [discriminate |].
  cbn [orb] in H.
  destruct (Atoi (Options_Port options)) as [port [err |]]; [discriminate |].
  injection H as <- <-. cbn [Self ID IP Port fst snd]. by rewrite Hdef.
Qed.

Lemma newHashTable_Self_witness :
  ID (Self table0) = default (newID rand_ok).1 (Options_ID options0) /\
  IP (Self table0) = ParseIP_ex (Options_IP options0) /\
  Port (Self table0) = (Atoi_ex (Options_Port options0)).1 /\
  Options_IP options0 <> EmptyString /\ Options_Port options0 <> EmptyString /\
  (Atoi_ex (Options_Port options0)).2 = None.
Proof.
  apply (newHashTable_Self ParseIP_ex Atoi_ex rand_ok options0 table0 None).
  reflexivity.
Defined.

(** X24. The error values, an identifier being at hand: an empty IP or an
    empty Port gives the error "Port and IP required", whether or not the
    other option is good and without the Port being parsed; with both
    present, a Port that does not parse gives the error of
    [strconv.Atoi], passed on as it is. *)
Theorem newHashTable_errors
    (ParseIP : string -> net_IP) (Atoi : string -> Z * option error)
    (rand_Read : list byte -> list byte * option error) (options : Options) :
  is_Some (Options_ID options) \/ (newID rand_Read).2 = None ->
  (Options_IP options = EmptyString \/ Options_Port options = EmptyString ->
   newHashTable ParseIP Atoi rand_Read options
   = Returns (None, Some (errors_New "Port and IP required"))) /\
  (forall err,
     Options_IP options <> EmptyString -> Options_Port options <> EmptyString ->
     (Atoi (Options_Port options)).2 = Some err ->
     newHashTable ParseIP Atoi rand_Read options = Returns (None, Some err)).
Proof.
  intros Hid. unfold newHashTable.
  assert (exists id,
    match Options_ID options with
    | Some id => Returns id
    | None => match newID rand_Read with
              | (_, Some err) => Panics err
              | (id, None) => Returns id
              end
    end = Returns id) as [id ->].
  { destruct Hid as [[id ->] | Hrand]; [by exists id |].
    destruct (Options_ID options) as [id |]; [by exists id |].
    destruct (newID rand_Read) as [id [err |]]; [discriminate | by exists id]. }
  split.
  - intros Hempty.
    destruct (String.eqb_spec (Options_IP options) "") as [| HIP]; [reflexivity |].
    destruct (String.eqb_spec (Options_Port options) "") as [| HPort]; [reflexivity |].
    by destruct Hempty.
  - intros err HIP HPort Herr.
    destruct (String.eqb_spec (Options_IP options) "") as [| _]; [done |].
    destruct (String.eqb_spec (Options_Port options) "") as [| _]; [done |].
    cbn [orb]. destruct (Atoi (Options_Port options)) as [port o].
    cbn [snd] in Herr. by subst o.
Qed.

Lemma newHashTable_errors_witness :
  newHashTable ParseIP_ex Atoi_ex rand_ok
    {| Options_ID := None; Options_IP := ""; Options_Port := "http" |}
  = Returns (None, Some (errors_New "Port and IP required")).
Proof.
  refine (proj1 (newHashTable_errors ParseIP_ex Atoi_ex rand_ok
           {| Options_ID := None; Options_IP := ""; Options_Port := "http" |} _) _).
  - right. reflexivity.
  - left. reflexivity.
Defined.


(** ** Calls for different buckets *)

(** [addNode] as one update of the target bucket. *)
Lemma addNode_bucketAfter (ht ht' : hashTable) (n : node) :
  addNode ht n = Some ht' <->
  exists idx bucket,
    getBucketIndexFromDifferingBit (ID (Self ht)) (ID n) = Some idx /\
    sliceAt (RoutingTable ht) idx = Some bucket /\
    ht' = {| Self := Self ht;
             RoutingTable := <[Z.to_nat idx := bucketAfter bucket n]> (RoutingTable ht) |}.
Proof.
  assert (Hstep : forall idx bucket,
    getBucketIndexFromDifferingBit (ID (Self ht)) (ID n) = Some idx ->
    sliceAt (RoutingTable ht) idx = Some bucket ->
    addNode ht n
    = Some {| Self := Self ht;
              RoutingTable := <[Z.to_nat idx := bucketAfter bucket n]> (RoutingTable ht) |}).
  { intros idx bucket Hidx Hbucket. unfold bucketAfter.
    pose proof (sliceAt_lookup _ _ _ Hbucket) as [_ Hlookup].
    destruct (alreadyExists bucket n) eqn:Hexists.
    - rewrite list_insert_id, hashTable_eta by done.
      unfold addNode. rewrite Hidx. cbn [mbind option_bind]. rewrite Hbucket.
      cbn [mbind option_bind]. by rewrite Hexists.
    - destruct (Z.ltb_spec (Z.of_nat (length bucket)) k) as [Hroom | Hfull].
      + by apply addNode_room.
      + rewrite list_insert_id, hashTable_eta by done.
        by apply (addNode_full_same ht n idx bucket). }
  split.
  - intros H. pose proof H as H'. unfold addNode in H'.
    apply bind_Some in H' as (idx & Hidx & H').
    apply bind_Some in H' as (bucket & Hbucket & _).
    exists idx, bucket. split; [exact Hidx |]. split; [exact Hbucket |].
    specialize (Hstep idx bucket Hidx Hbucket). congruence.
  - intros (idx & bucket & Hidx & Hbucket & ->). by apply Hstep.
Qed.

(** X26. Two calls whose contacts go to different buckets commute: made
    in either order they return, and leave the same table. *)
Theorem addNode_commute (ht h1 h12 : hashTable) (n1 n2 : node) (idx1 idx2 : Z) :
  getBucketIndexFromDifferingBit (ID (Self ht)) (ID n1) = Some idx1 ->
  getBucketIndexFromDifferingBit (ID (Self ht)) (ID n2) = Some idx2 ->
  idx1 <> idx2 ->
  addNode ht n1 = Some h1 -> addNode h1 n2 = Some h12 ->
  exists h2, addNode ht n2 = Some h2 /\ addNode h2 n1 = Some h12.
Proof.
  intros Hidx1 Hidx2 Hne Hadd1 Hadd2.
  apply addNode_bucketAfter in Hadd1 as (i1 & bucket1 & Hi1 & Hbucket1 & ->).
  apply addNode_bucketAfter in Hadd2 as (i2 & bucket2 & Hi2 & Hbucket2 & ->).
  cbn [Self RoutingTable] in *.
  assert (i1 = idx1) as -> by congruence.
  assert (i2 = idx2) as -> by congruence.
  pose proof (sliceAt_lookup _ _ _ Hbucket1) as [Hpos1 _].
  pose proof (sliceAt_lookup _ _ _ Hbucket2) as [Hpos2 _].
  rewrite sliceAt_insert_ne in Hbucket2 by done.
  eexists. split.
  - apply addNode_bucketAfter. by exists idx2, bucket2.
  - apply addNode_bucketAfter. exists idx1, bucket1. cbn [Self RoutingTable].
    split; [exact Hidx1 |].
    split; [by rewrite sliceAt_insert_ne by (done || congruence) |].
    f_equal. apply list_insert_insert_ne. lia.
Qed.

Lemma addNode_commute_witness :
  exists h2,
    addNode table0 (contact (lowID x20)) = Some h2 /\
    addNode h2 (contact (lowID x01))
    = Some {| Self := Self table0;
              RoutingTable :=
                <[5%nat := [contact (lowID x20)]]> (RoutingTable table0_one) |}.
Proof.
  apply (addNode_commute table0 table0_one
           {| Self := Self table0;
              RoutingTable :=
                <[5%nat := [contact (lowID x20)]]> (RoutingTable table0_one) |}
           (contact (lowID x01)) (contact (lowID x20)) 0 5).
  - reflexivity.
  - reflexivity.
  - discriminate.
  - vm_compute. reflexivity.
  - vm_compute. reflexivity.
Defined.
